(** * Bob Scheme: bytecode model, serializer, compiler and host glue

    A shallow embedding of the Python sources
      - [bob/bytecode.py]  (opcodes, [Instruction], [CodeObject], [Serializer]),
      - [bob/compiler.py]  ([BobCompiler], emitting byteplay instruction lists),
      - [bob2py.py]        ([Environment], [CodeGenerator]),
      - [bob/runtime.py] and [bob/cmd.py] (the host primitives),
    followed by the properties established about them.

    Python 2 byte strings ([str]) are Rocq [string]s (sequences of 8-bit
    characters); Python integers are [Z]; a raised exception is [None] in
    the serializer and a [Raise] result in the compiler and in bob2py.
    The modules that the sources import but that are not among them
    (utils, expr, bobparser, the Deserializer) are modelled from their
    documented contracts or taken as parameters, as said where they
    appear. *)

From Stdlib Require Import ZArith List Bool Ascii String Lia Permutation.
Import ListNotations.

Set Warnings "-register-all".

Local Open Scope string_scope.
Local Open Scope Z_scope.

(* ================================================================== *)
(** * bob/bytecode.py *)
(* ================================================================== *)

Module Bytecode.

(** ** Opcodes *)

Definition OP_CONST    : Z := 0x00.
Definition OP_LOADVAR  : Z := 0x10.
Definition OP_STOREVAR : Z := 0x11.
Definition OP_DEFVAR   : Z := 0x12.
Definition OP_FUNCTION : Z := 0x20.
Definition OP_POP      : Z := 0x30.
Definition OP_JUMP     : Z := 0x40.
Definition OP_FJUMP    : Z := 0x41.
Definition OP_RETURN   : Z := 0x50.
Definition OP_CALL     : Z := 0x51.

(** The keys of [_opcode2str_map]. *)
Definition opcodes : list Z :=
  [OP_CONST; OP_LOADVAR; OP_STOREVAR; OP_DEFVAR; OP_FUNCTION;
   OP_POP; OP_JUMP; OP_FJUMP; OP_RETURN; OP_CALL].

Definition opcode2str (opcode : Z) : option string :=
  if (opcode =? OP_CONST)%Z then Some "CONST"
  else if (opcode =? OP_LOADVAR)%Z then Some "LOADVAR"
  else if (opcode =? OP_STOREVAR)%Z then Some "STOREVAR"
  else if (opcode =? OP_DEFVAR)%Z then Some "DEFVAR"
  else if (opcode =? OP_FUNCTION)%Z then Some "FUNCTION"
  else if (opcode =? OP_POP)%Z then Some "POP"
  else if (opcode =? OP_JUMP)%Z then Some "JUMP"
  else if (opcode =? OP_FJUMP)%Z then Some "FJUMP"
  else if (opcode =? OP_RETURN)%Z then Some "RETURN"
  else if (opcode =? OP_CALL)%Z then Some "CALL"
  else None.

(** ** Data model *)

(** [class Instruction]: an opcode and an argument; the argument is [None]
    for the opcodes that take none. *)
Record Instruction : Type := mkInstruction {
  opcode : Z;
  arg : option Z
}.

(** [class CodeObject], over the type [T] of the objects held in its lists.
    [__init__] sets the name to the empty string; a procedure without a
    name may also carry [None], which [__repr__] tests for. *)
Record CodeObject_ (T : Type) : Type := mkCodeObject {
  name : option string;
  args : list T;
  code : list T;
  constants : list T;
  varnames : list T
}.
Arguments mkCodeObject {T}.
Arguments name {T}.
Arguments args {T}.
Arguments code {T}.
Arguments constants {T}.
Arguments varnames {T}.

(** The Python values the serializer dispatches on: the keys of
    [Serializer._serialize_type_dispatch].  [Boolean], [Number], [Symbol]
    and [Pair] are the classes of the expr module. *)
Inductive obj : Type :=
| PyNone
| Boolean (value : bool)
| Number (value : Z)
| Symbol (value : string)
| Pair (first second : obj)
| Instr (instr : Instruction)
| CodeObj (codeobject : CodeObject_ obj)
| PyList (seq : list obj)
| PyStr (s : string).

Definition CodeObject : Type := CodeObject_ obj.

(** ** Serialization *)

Definition MAGIC_CONST : Z := 0x00010B0B.

Definition TYPE_NULL       : string := "0".
Definition TYPE_BOOLEAN    : string := "b".
Definition TYPE_STRING     : string := "s".
Definition TYPE_NUMBER     : string := "n".
Definition TYPE_PAIR       : string := "p".
Definition TYPE_INSTR      : string := "i".
Definition TYPE_SEQUENCE   : string := "[".
Definition TYPE_CODEOBJECT : string := "c".

(** The character with code [z mod 256]. *)
Definition chr (z : Z) : ascii := ascii_of_N (Z.to_N (z mod 256)).
Definition ord (c : ascii) : Z := Z.of_N (N_of_ascii c).

(** Python's [len]. *)
Definition len (s : string) : Z := Z.of_nat (String.length s).

(** Modelled from the spec: [utils.pack_word] (bob/utils.py is not under
    src/).  The docstring of [Serializer._s_word] gives its contract: "a
    32-bit integer, serialized in 4 bytes as little-endian".  A value that
    is not a 32-bit unsigned integer is not packed (the call raises). *)
Definition pack_word (word : Z) : option string :=
  if (0 <=? word) && (word <? 2 ^ 32) then
    Some (String (chr word)
         (String (chr (word / 2 ^ 8))
         (String (chr (word / 2 ^ 16))
         (String (chr (word / 2 ^ 24)) EmptyString))))
  else None.

Definition bind {A B : Type} (m : option A) (f : A -> option B) : option B :=
  match m with
  | Some a => f a
  | None => None
  end.

Notation "x <- m ;; k" := (bind m (fun x => k))
  (at level 61, m at next level, right associativity).

Definition _s_word (wordvalue : Z) : option string := pack_word wordvalue.

Definition _s_string (s : string) : option string :=
  w <- _s_word (len s) ;;
  Some (TYPE_STRING ++ w ++ s).

Definition _s_null : option string := Some TYPE_NULL.

Definition _s_boolean (value : bool) : option string :=
  Some (TYPE_BOOLEAN ++ (if value then String (chr 1) EmptyString
                         else String (chr 0) EmptyString)).

Definition _s_number (value : Z) : option string :=
  w <- _s_word value ;;
  Some (TYPE_NUMBER ++ w).

Definition _s_symbol (value : string) : option string := _s_string value.

(** [instr.arg or 0]: [None] and [0] both give [0]. *)
Definition arg_or_0 (a : option Z) : Z :=
  match a with
  | Some z => z
  | None => 0
  end.

Definition instr_word (instr : Instruction) : Z :=
  Z.lor (Z.shiftl (opcode instr) 24) (Z.land (arg_or_0 (arg instr)) 0xFFFFFF).

Definition _s_instruction (instr : Instruction) : option string :=
  w <- _s_word (instr_word instr) ;;
  Some (TYPE_INSTR ++ w).

(** [''.join(self._s_object(obj) for obj in seq)]: the first element whose
    serialization raises aborts the join. *)
Definition join (s_object : obj -> option string) : list obj -> option string :=
  fix go (seq : list obj) : option string :=
    match seq with
    | [] => Some EmptyString
    | o :: rest =>
        x <- s_object o ;;
        xs <- go rest ;;
        Some (x ++ xs)
    end.

Definition _s_sequence (s_object : obj -> option string) (seq : list obj)
  : option string :=
  payload <- join s_object seq ;;
  w <- _s_word (len payload) ;;
  Some (TYPE_SEQUENCE ++ w ++ payload).

Definition _s_pair (s_object : obj -> option string) (first second : obj)
  : option string :=
  a <- s_object first ;;
  b <- s_object second ;;
  Some (TYPE_PAIR ++ a ++ b).

(** [self._s_string(codeobject.name)]: on the name [None] the call of
    [len] in [_s_string] raises. *)
Definition _s_codeobject (s_object : obj -> option string)
  (codeobject : CodeObject) : option string :=
  n <- (s <- name codeobject ;; _s_string s) ;;
  a <- _s_sequence s_object (args codeobject) ;;
  k <- _s_sequence s_object (constants codeobject) ;;
  v <- _s_sequence s_object (varnames codeobject) ;;
  c <- _s_sequence s_object (code codeobject) ;;
  Some (TYPE_CODEOBJECT ++ n ++ a ++ k ++ v ++ c).

(** [Serializer._s_object]: dispatch on the type of the object. *)
Fixpoint _s_object (o : obj) : option string :=
  match o with
  | PyNone => _s_null
  | Boolean value => _s_boolean value
  | Number value => _s_number value
  | Symbol value => _s_symbol value
  | Pair first second => _s_pair _s_object first second
  | Instr instr => _s_instruction instr
  | CodeObj c =>
      match c with
      | mkCodeObject n a cd k v =>
          _s_codeobject _s_object (mkCodeObject n a cd k v)
      end
  | PyList seq => _s_sequence _s_object seq
  | PyStr s => _s_string s
  end.

Definition serialize_bytecode (codeobject : CodeObject) : option string :=
  m <- _s_word MAGIC_CONST ;;
  c <- _s_codeobject _s_object codeobject ;;
  Some (m ++ c).

(** ** Deserialization *)

(** The first [n] bytes of [s] and what follows them; [None] when [s] is
    shorter than [n]. *)
Fixpoint split_at (n : nat) (s : string) : option (string * string) :=
  match n with
  | O => Some (EmptyString, s)
  | S n' =>
      match s with
      | EmptyString => None
      | String c r =>
          p <- split_at n' r ;;
          Some (String c (fst p), snd p)
      end
  end.

(** Modelled from the spec: [utils.unpack_word] (bob/utils.py is not under
    src/), the inverse of [pack_word]: four bytes, little-endian. *)
Definition unpack_word (s : string) : option (Z * string) :=
  match s with
  | String b0 (String b1 (String b2 (String b3 rest))) =>
      Some (ord b0 + 2 ^ 8 * ord b1 + 2 ^ 16 * ord b2 + 2 ^ 24 * ord b3, rest)
  | _ => None
  end.

(** A 4-byte word read as a signed (two's complement) number. *)
Definition signed32 (w : Z) : Z := if w <? 2 ^ 31 then w else w - 2 ^ 32.

Definition is_tag (c : ascii) (tag : string) : bool :=
  String.eqb (String c EmptyString) tag.

Definition expect_str (r : option (obj * string)) : option (string * string) :=
  match r with
  | Some (PyStr s, rest) => Some (s, rest)
  | _ => None
  end.

Definition expect_list (r : option (obj * string))
  : option (list obj * string) :=
  match r with
  | Some (PyList l, rest) => Some (l, rest)
  | _ => None
  end.

(** Modelled from the spec: [Deserializer] (imported by bob2py.py from
    bob.bytecode, but not defined in the bob/bytecode.py under src/), in two
    steps.  The first, [_d_object], reads the records of the layout; a
    STRING record is read as its bytes and an INSTRUCTION record as its
    opcode and its 24-bit field.  The second, [typed_code] below, gives each
    record the type that the data model expects at its place.  The spec's
    codec section gives the layout: every value is a tag byte and a
    payload; NULL is the tag alone; BOOLEAN one byte 0/1;
    NUMBER a 4-byte signed word; STRING a 4-byte length and that many bytes;
    PAIR two values; INSTRUCTION a 4-byte word, opcode in the high byte and
    argument in the low three; SEQUENCE a 4-byte byte-length and the
    elements, which must fill exactly that many bytes; CODEOBJECT a string
    and four sequences (args, constants, varnames, code).  Truncation, an
    unknown tag and a length mismatch give [None] (FormatError).  [fuel]
    bounds the nesting; [deserialize_bytecode] supplies the input length. *)
Fixpoint _d_object (fuel : nat) (s : string) {struct fuel}
  : option (obj * string) :=
  match fuel with
  | O => None
  | S fuel' =>
      match s with
      | EmptyString => None
      | String tag r =>
          if is_tag tag TYPE_NULL then Some (PyNone, r)
          else if is_tag tag TYPE_BOOLEAN then
            match r with
            | String b r' =>
                if ord b =? 0 then Some (Boolean false, r')
                else if ord b =? 1 then Some (Boolean true, r')
                else None
            | EmptyString => None
            end
          else if is_tag tag TYPE_STRING then
            p <- unpack_word r ;;
            q <- split_at (Z.to_nat (fst p)) (snd p) ;;
            Some (PyStr (fst q), snd q)
          else if is_tag tag TYPE_NUMBER then
            p <- unpack_word r ;;
            Some (Number (signed32 (fst p)), snd p)
          else if is_tag tag TYPE_PAIR then
            a <- _d_object fuel' r ;;
            b <- _d_object fuel' (snd a) ;;
            Some (Pair (fst a) (fst b), snd b)
          else if is_tag tag TYPE_INSTR then
            p <- unpack_word r ;;
            Some (Instr (mkInstruction (fst p / 2 ^ 24)
                                       (Some (fst p mod 2 ^ 24))), snd p)
          else if is_tag tag TYPE_SEQUENCE then
            p <- unpack_word r ;;
            q <- split_at (Z.to_nat (fst p)) (snd p) ;;
            l <- _d_elements fuel' (fst q) ;;
            Some (PyList l, snd q)
          else if is_tag tag TYPE_CODEOBJECT then
            n <- expect_str (_d_object fuel' r) ;;
            a <- expect_list (_d_object fuel' (snd n)) ;;
            k <- expect_list (_d_object fuel' (snd a)) ;;
            v <- expect_list (_d_object fuel' (snd k)) ;;
            c <- expect_list (_d_object fuel' (snd v)) ;;
            Some (CodeObj (mkCodeObject (Some (fst n)) (fst a) (fst c) (fst k)
                             (fst v)),
                  snd c)
          else None
      end
  end
with _d_elements (fuel : nat) (s : string) {struct fuel} : option (list obj) :=
  match fuel with
  | O => None
  | S fuel' =>
      match s with
      | EmptyString => Some []
      | _ =>
          o <- _d_object fuel' s ;;
          l <- _d_elements fuel' (snd o) ;;
          Some (fst o :: l)
      end
  end.

(** [for x in l] with a step that may fail: the first failure fails the
    whole. *)
Definition all_of (f : obj -> option obj) : list obj -> option (list obj) :=
  fix go (l : list obj) : option (list obj) :=
    match l with
    | [] => Some []
    | o :: r =>
        x <- f o ;;
        xs <- go r ;;
        Some (x :: xs)
    end.

(** Modelled from the spec: the opcodes that take an argument.  The opcode
    table (section 4.2) gives none to POP and RETURN, and
    [CodeObject.__repr__] prints none for them. *)
Definition takes_argument (opcode : Z) : bool :=
  negb ((opcode =? OP_POP) || (opcode =? OP_RETURN)).

(** Modelled from the spec: what a record stands for at the place it is
    read for.  The layout has one STRING record, "used for
    symbol/variable/procedure names": as the name of a code object and in
    [args] and [varnames], which are sequences of strings, it is a string;
    among the constants, which are expression values (null, boolean,
    number, symbol, pair) or code objects, it is a symbol.  An instruction
    has an optional argument: that of an opcode which takes none is absent,
    whatever the 24-bit field holds.  A record of a kind that its place
    does not allow is a format error ([None]). *)
Definition typed_name (o : obj) : option obj :=
  match o with
  | PyStr s => Some (PyStr s)
  | _ => None
  end.

Definition typed_instruction (o : obj) : option obj :=
  match o with
  | Instr i =>
      Some (Instr (mkInstruction (opcode i)
                     (if takes_argument (opcode i) then arg i else None)))
  | _ => None
  end.

Fixpoint typed_value (o : obj) : option obj :=
  match o with
  | PyNone => Some PyNone
  | Boolean b => Some (Boolean b)
  | Number z => Some (Number z)
  | PyStr s => Some (Symbol s)
  | Pair a b =>
      x <- typed_value a ;;
      y <- typed_value b ;;
      Some (Pair x y)
  | _ => None
  end.

Definition typed_constant (typed_code : obj -> option obj) (o : obj)
  : option obj :=
  match o with
  | CodeObj _ => typed_code o
  | _ => typed_value o
  end.

Fixpoint typed_code (o : obj) : option obj :=
  match o with
  | CodeObj c =>
      match c with
      | mkCodeObject n a cd k v =>
          a' <- all_of typed_name a ;;
          cd' <- all_of typed_instruction cd ;;
          k' <- all_of (typed_constant typed_code) k ;;
          v' <- all_of typed_name v ;;
          Some (CodeObj (mkCodeObject n a' cd' k' v'))
      end
  | _ => None
  end.


(** What [_d_object] reads back from the encoding of an object: a STRING
    record as its bytes, and the 24-bit field of an instruction as a
    number. *)
Definition decoded_instr (i : Instruction) : Instruction :=
  mkInstruction (opcode i) (Some (arg_or_0 (arg i))).

Fixpoint decoded_form (o : obj) : obj :=
  match o with
  | PyNone => PyNone
  | Boolean b => Boolean b
  | Number z => Number z
  | Symbol s => PyStr s
  | Pair a b => Pair (decoded_form a) (decoded_form b)
  | Instr i => Instr (decoded_instr i)
  | CodeObj c =>
      match c with
      | mkCodeObject n a cd k v =>
          CodeObj (mkCodeObject n (map decoded_form a) (map decoded_form cd)
                     (map decoded_form k) (map decoded_form v))
      end
  | PyList l => PyList (map decoded_form l)
  | PyStr s => PyStr s
  end.





(** The length of the encoding of an object. *)
Definition sum_map (f : obj -> Z) : list obj -> Z :=
  fix go (l : list obj) : Z :=
    match l with
    | [] => 0
    | o :: r => f o + go r
    end.

Fixpoint enc_len (o : obj) : Z :=
  match o with
  | PyNone => 1
  | Boolean _ => 2
  | Number _ => 5
  | Symbol s => 5 + len s
  | Pair a b => 1 + enc_len a + enc_len b
  | Instr _ => 5
  | CodeObj c =>
      match c with
      | mkCodeObject n a cd k v =>
          1 + (5 + match n with Some s => len s | None => 0 end)
          + (5 + sum_map enc_len a) + (5 + sum_map enc_len k)
          + (5 + sum_map enc_len v) + (5 + sum_map enc_len cd)
      end
  | PyList l => 5 + sum_map enc_len l
  | PyStr s => 5 + len s
  end.

(** Objects whose every field fits the width the layout gives it: numbers in
    31 bits, opcodes in a byte, instruction arguments in 24 bits, string and
    sequence lengths in 32 bits; a code object has a string for a name. *)
Fixpoint encodable (o : obj) : bool :=
  match o with
  | PyNone | Boolean _ => true
  | Number z => (0 <=? z) && (z <? 2 ^ 31)
  | Symbol s | PyStr s => len s <? 2 ^ 32
  | Pair a b => encodable a && encodable b
  | Instr i =>
      (0 <=? opcode i) && (opcode i <? 256)
      && (0 <=? arg_or_0 (arg i)) && (arg_or_0 (arg i) <? 2 ^ 24)
  | CodeObj c =>
      match c with
      | mkCodeObject n a cd k v =>
          match n with Some s => len s <? 2 ^ 32 | None => false end
          && (forallb encodable a && (sum_map enc_len a <? 2 ^ 32))
          && (forallb encodable k && (sum_map enc_len k <? 2 ^ 32))
          && (forallb encodable v && (sum_map enc_len v <? 2 ^ 32))
          && (forallb encodable cd && (sum_map enc_len cd <? 2 ^ 32))
      end
  | PyList l => forallb encodable l && (sum_map enc_len l <? 2 ^ 32)
  end.

(** ** Example code objects *)



End Bytecode.

(* ================================================================== *)
(** * byteplay: the instruction lists the compiler and bob2py emit *)
(* ================================================================== *)

Module Byteplay.
Import Bytecode.

(** A [Label()] object has no content, only an identity: the number of the
    allocation that made it. *)
Definition Label : Type := nat.

(** The byteplay opcodes named in compiler.py and bob2py.py. *)
Inductive Opcode : Type :=
| LOAD_CONST | LOAD_NAME | LOAD_GLOBAL | STORE_GLOBAL | LOAD_FAST
| STORE_FAST | LOAD_ATTR | POP_TOP | DUP_TOP | ROT_TWO | BINARY_ADD
| BINARY_SUBSCR | STORE_SUBSCR | BUILD_LIST | BUILD_TUPLE | PRINT_EXPR
| RETURN_VALUE | MAKE_FUNCTION | POP_JUMP_IF_FALSE | JUMP_ABSOLUTE
| CALL_FUNCTION.

(** [byteplay.Code(code, freevars, args, varargs, varkwargs, newlocals, name,
    filename, firstlineno, docstring)], over the type [I] of the entries of
    its code list. *)
Record Code_ (I : Type) : Type := mkCode {
  code : list I;
  freevars : list string;
  args : list string;
  varargs : bool;
  varkwargs : bool;
  newlocals : bool;
  name : string;
  filename : string;
  firstlineno : Z;
  docstring : option string
}.
Arguments mkCode {I}.
Arguments code {I}.
Arguments args {I}.
Arguments name {I}.

(** An entry of a code list is an [(opcode, arg)] tuple or a bare [Label]
    object; an argument is a Python value: an int, a bool, a label, a code
    object, or an object of the bytecode model ([None], a string, ...). *)
Inductive item : Type :=
| Ins (op : Opcode) (arg : pyarg)
| Lbl (l : Label)
with pyarg : Type :=
| AInt (z : Z)
| ABool (b : bool)
| AObj (o : obj)
| ALabel (l : Label)
| ACode (c : Code_ item).

Definition Code : Type := Code_ item.
Definition ANone : pyarg := AObj PyNone.
Definition AStr (s : string) : pyarg := AObj (PyStr s).

(** Renaming the labels of a code list. *)
Fixpoint relabel_item (f : Label -> Label) (i : item) : item :=
  match i with
  | Ins op a => Ins op (relabel_arg f a)
  | Lbl l => Lbl (f l)
  end
with relabel_arg (f : Label -> Label) (a : pyarg) : pyarg :=
  match a with
  | AInt z => AInt z
  | ABool b => ABool b
  | AObj o => AObj o
  | ALabel l => ALabel (f l)
  | ACode c =>
      match c with
      | mkCode cd fv ar va vk nl nm fn ln ds =>
          ACode (mkCode (map (relabel_item f) cd) fv ar va vk nl nm fn ln ds)
      end
  end.

Definition relabel (f : Label -> Label) (c : Code) : Code :=
  match c with
  | mkCode cd fv ar va vk nl nm fn ln ds =>
      mkCode (map (relabel_item f) cd) fv ar va vk nl nm fn ln ds
  end.

End Byteplay.

(* ================================================================== *)
(** * bob/compiler.py *)
(* ================================================================== *)

Module Compiler.
Import Bytecode.
Import Byteplay.

Inductive exn : Type :=
| CompileError (msg : string) (subject : obj)
| NameError (name : string)
| AttributeError
| UnicodeDecodeError
| ExprError
| ParseError.

(** The outcome of a call: a value, a raised exception, or the exhaustion of
    the recursion budget of the model. *)
Inductive result (A : Type) : Type :=
| Ok (a : A)
| Raise (e : exn)
| OutOfFuel.
Arguments Ok {A}.
Arguments Raise {A}.
Arguments OutOfFuel {A}.

(** [class GlobalFrame] and [class LocalFrame]. *)
Inductive Frame : Type :=
| GlobalFrame (vars : list string)
| LocalFrame (parent : Frame) (vars : list string).

(** The mutable state a compilation runs in: the attributes of the
    [BobCompiler] instance ([frame] is unset until [compile] sets it) and the
    number of [Label] objects allocated so far. *)
Record world : Type := mkWorld {
  labelstate : Z;
  frame : option Frame;
  next_label : nat
}.

Definition M (A : Type) : Type := world -> result (A * world).

Definition ret {A : Type} (a : A) : M A := fun w => Ok (a, w).

Definition bind {A B : Type} (m : M A) (f : A -> M B) : M B :=
  fun w =>
    match m w with
    | Ok (a, w') => f a w'
    | Raise e => Raise e
    | OutOfFuel => OutOfFuel
    end.

Definition raise {A : Type} (e : exn) : M A := fun _ => Raise e.

Definition out_of_fuel {A : Type} : M A := fun _ => OutOfFuel.

Declare Scope comp_scope.
Delimit Scope comp_scope with comp.
Notation "x <- m ;; k" := (bind m (fun x => k))
  (at level 61, m at next level, right associativity) : comp_scope.
Local Open Scope comp_scope.

(** A call of a helper that returns or raises. *)
Definition lift {A : Type} (o : option A) : M A :=
  match o with
  | Some a => ret a
  | None => raise ExprError
  end.

Fixpoint mapM {A B : Type} (f : A -> M B) (l : list A) : M (list B) :=
  match l with
  | [] => ret []
  | x :: r =>
      y <- f x ;;
      ys <- mapM f r ;;
      ret (y :: ys)
  end.

(** [Label()]. *)
Definition new_label : M Label :=
  fun w => Ok (next_label w,
               mkWorld (labelstate w) (frame w) (S (next_label w))).

Definition set_frame (f : option Frame) : M unit :=
  fun w => Ok (tt, mkWorld (labelstate w) f (next_label w)).

Definition get_frame : M Frame :=
  fun w =>
    match frame w with
    | Some f => Ok (f, w)
    | None => Raise AttributeError
    end.

(** The functions of the expr module that compiler.py calls; bob/expr.py is
    not under src/, so they are parameters of the compiler.  An accessor
    returns [None] when it raises. *)
Class ExprModule : Type := {
  is_self_evaluating : obj -> bool;
  is_variable : obj -> bool;
  is_quoted : obj -> bool;
  text_of_quotation : obj -> option obj;
  is_assignment : obj -> bool;
  assignment_value : obj -> option obj;
  assignment_variable : obj -> option obj;
  is_definition : obj -> bool;
  definition_value : obj -> option obj;
  definition_variable : obj -> option obj;
  is_if : obj -> bool;
  if_predicate : obj -> option obj;
  if_consequent : obj -> option obj;
  if_alternative : obj -> option obj;
  is_cond : obj -> bool;
  convert_cond_to_ifs : obj -> option obj;
  is_let : obj -> bool;
  convert_let_to_application : obj -> option obj;
  is_lambda : obj -> bool;
  lambda_parameters : obj -> option obj;
  lambda_body : obj -> option obj;
  is_begin : obj -> bool;
  begin_actions : obj -> option obj;
  is_application : obj -> bool;
  application_operands : obj -> option obj;
  application_operator : obj -> option obj;
  (** [expand_nested_pairs(pair, recursive=...)]; the second argument is
      [None] when the call leaves it out. *)
  expand_nested_pairs : obj -> option bool -> option (list obj)
}.

(** [BobParser().parse]; bob/bobparser.py is not under src/. *)
Class ParserModule : Type := {
  parse : string -> option (list obj)
}.

(** [expr.value], for the classes that have the attribute. *)
Definition attr_value (expr : obj) : M pyarg :=
  match expr with
  | Boolean b => ret (ABool b)
  | Number z => ret (AInt z)
  | Symbol s => ret (AStr s)
  | _ => raise AttributeError
  end.

Definition is_ascii (c : ascii) : bool :=
  match c with
  | Ascii _ _ _ _ _ _ _ b7 => negb b7
  end.

Fixpoint all_ascii (s : string) : bool :=
  match s with
  | EmptyString => true
  | String c r => is_ascii c && all_ascii r
  end.

(** [expr.value.encode('utf-8')] on a Python 2 byte string: the bytes
    themselves when all are ASCII, otherwise the implicit ASCII decoding
    raises; an int or a bool has no [encode]. *)
Definition value_encode (expr : obj) : M pyarg :=
  match expr with
  | Symbol s => if all_ascii s then ret (AStr s) else raise UnicodeDecodeError
  | _ => raise AttributeError
  end.

(** [GlobalFrame.load], [LocalFrame.load]: the instruction that loads the
    name, fast when a local frame of the chain holds it. *)
Fixpoint frame_load (f : Frame) (name : string) : list item :=
  match f with
  | GlobalFrame _ => [Ins LOAD_GLOBAL (AStr name)]
  | LocalFrame parent vars =>
      if existsb (String.eqb name) vars then [Ins LOAD_FAST (AStr name)]
      else frame_load parent name
  end.

(** [GlobalFrame.store] adds the name to the set [vars]; [LocalFrame.store]
    calls [self.vars.add(name)] on what [__init__] made a list, which has no
    [add]: the call raises. *)
Definition frame_store (f : Frame) (name : string)
  : result (list item * Frame) :=
  match f with
  | GlobalFrame vars =>
      Ok ([Ins STORE_GLOBAL (AStr name)],
          GlobalFrame (if existsb (String.eqb name) vars then vars
                       else name :: vars))
  | LocalFrame _ _ => Raise AttributeError
  end.

(** No local frame of the chain holds a variable. *)
Fixpoint no_locals (f : Frame) : Prop :=
  match f with
  | GlobalFrame _ => True
  | LocalFrame parent vars => vars = [] /\ no_locals parent
  end.

Section BobCompiler.
Context {E : ExprModule}.

Definition _instr (opcode : Opcode) (arg : pyarg) : list item :=
  [Ins opcode arg].

(** Modelled from the spec: [utils.flatten] (bob/utils.py is not under
    src/): [_instr_seq] is documented to "create a sequence (list) of
    instructions" out of its arguments, each a list here; the lists are
    chained in order. *)
Definition _instr_seq (args : list (list item)) : list item :=
  List.concat args.

(** [_local_frame]: the body runs with a fresh [LocalFrame] whose parent is
    the current frame, which is restored when the body returns. *)
Definition _local_frame {A : Type} (body : M A) : M A :=
  parent <- get_frame ;;
  _ <- set_frame (Some (LocalFrame parent [])) ;;
  a <- body ;;
  _ <- set_frame (Some parent) ;;
  ret a.

Definition _comp_exprlist (comp : obj -> M (list item)) (exprlist : list obj)
  : M (list item) :=
  instr_pop_pairs <-
    mapM (fun expr =>
            c <- comp expr ;;
            ret (_instr_seq [c; _instr POP_TOP ANone])) exprlist ;;
  let instrs := _instr_seq instr_pop_pairs in
  ret (if (0 <? Z.of_nat (List.length instrs))%Z
       then removelast instrs else instrs).

Definition _comp_begin (comp : obj -> M (list item)) (exprs : obj)
  : M (list item) :=
  exprlist <- lift (expand_nested_pairs exprs (Some false)) ;;
  _comp_exprlist comp exprlist.

(** The loop of [_comp_lambda] over the parameters. *)
Fixpoint symbol_names (args : list obj) : M (list string) :=
  match args with
  | [] => ret []
  | sym :: rest =>
      match sym with
      | Symbol v =>
          vs <- symbol_names rest ;;
          ret (v :: vs)
      | _ => raise (CompileError "Expected symbol in argument list" sym)
      end
  end.

Definition _comp_lambda (comp : obj -> M (list item)) (expr : obj)
  : M (list item) :=
  params <- lift (lambda_parameters expr) ;;
  args <- lift (expand_nested_pairs params None) ;;
  arglist <- symbol_names args ;;
  ops <- _local_frame (
           body <- lift (lambda_body expr) ;;
           b <- _comp_begin comp body ;;
           ret (_instr_seq [b; _instr RETURN_VALUE ANone])) ;;
  let proc_code :=
    mkCode ops [] arglist false false true "lambda" "<<scheme>>" 0 None in
  ret (_instr_seq [_instr LOAD_CONST (ACode proc_code);
                   _instr MAKE_FUNCTION (AInt 0)]).

Definition _comp_definition (comp : obj -> M (list item)) (expr : obj)
  : M (list item) :=
  value <- lift (definition_value expr) ;;
  compiled_val <- comp value ;;
  var <- lift (definition_variable expr) ;;
  n <- value_encode var ;;
  ret (_instr_seq [compiled_val;
                   _instr STORE_FAST n;
                   _instr LOAD_CONST ANone]).

Definition _comp_if (comp : obj -> M (list item)) (expr : obj)
  : M (list item) :=
  label_else <- new_label ;;
  label_after_else <- new_label ;;
  p <- lift (if_predicate expr) ;;
  cp <- comp p ;;
  c <- lift (if_consequent expr) ;;
  cc <- comp c ;;
  a <- lift (if_alternative expr) ;;
  ca <- comp a ;;
  ret (_instr_seq [cp;
                   _instr POP_JUMP_IF_FALSE (ALabel label_else);
                   cc;
                   _instr JUMP_ABSOLUTE (ALabel label_after_else);
                   [Lbl label_else];
                   ca;
                   [Lbl label_after_else]]).

Definition _comp_application (comp : obj -> M (list item)) (expr : obj)
  : M (list item) :=
  operands <- lift (application_operands expr) ;;
  args <- lift (expand_nested_pairs operands (Some false)) ;;
  compiled <- mapM comp args ;;
  let compiled_args := _instr_seq compiled in
  operator <- lift (application_operator expr) ;;
  compiled_op <- comp operator ;;
  ret (_instr_seq [compiled_op;
                   compiled_args;
                   _instr CALL_FUNCTION (AInt (Z.of_nat (List.length args)))]).

(** [BobCompiler._comp].  [fuel] bounds the depth of the recursion.  The
    branch of a quoted expression names [OP_CONST], which compiler.py does
    not import: evaluating the name raises before anything is emitted. *)
Fixpoint _comp (fuel : nat) (expr : obj) {struct fuel} : M (list item) :=
  match fuel with
  | O => out_of_fuel
  | S fuel' =>
      let comp := _comp fuel' in
      if is_self_evaluating expr then
        v <- attr_value expr ;;
        ret (_instr LOAD_CONST v)
      else if is_variable expr then
        n <- value_encode expr ;;
        ret (_instr LOAD_NAME n)
      else if is_quoted expr then
        raise (NameError "OP_CONST")
      else if is_assignment expr then
        value <- lift (assignment_value expr) ;;
        c <- comp value ;;
        var <- lift (assignment_variable expr) ;;
        n <- value_encode var ;;
        ret (_instr_seq [c; _instr STORE_FAST n])
      else if is_definition expr then _comp_definition comp expr
      else if is_if expr then _comp_if comp expr
      else if is_cond expr then
        e <- lift (convert_cond_to_ifs expr) ;;
        comp e
      else if is_let expr then
        e <- lift (convert_let_to_application expr) ;;
        comp e
      else if is_lambda expr then _comp_lambda comp expr
      else if is_begin expr then
        actions <- lift (begin_actions expr) ;;
        _comp_begin comp actions
      else if is_application expr then _comp_application comp expr
      else raise (CompileError "Unknown expression in COMPILE" expr)
  end.

(** [BobCompiler.compile]. *)
Definition compile (fuel : nat) (exprlist : list obj) : M Code :=
  _ <- set_frame (Some (GlobalFrame [])) ;;
  compiled_exprs <- _comp_exprlist (_comp fuel) exprlist ;;
  let module := _instr_seq [compiled_exprs; _instr RETURN_VALUE ANone] in
  ret (mkCode module [] [] false false false "__main__" "<scheme>>" 0 None).

(** [BobCompiler()]: a new instance, in a world where [n] labels exist. *)
Definition new_compiler (n : nat) : world := mkWorld 0 None n.

(** [compile_code], run when [n] labels have been allocated. *)
Definition compile_code {P : ParserModule} (fuel : nat) (code_str : string)
  (n : nat) : result (Code * world) :=
  match parse code_str with
  | Some parsed_exprs => compile fuel parsed_exprs (new_compiler n)
  | None => Raise ParseError
  end.

End BobCompiler.

(** The code of a sequence, as the comment of [_comp_begin] words it: the
    compiled expressions in order, "with a POP instruction inserted after
    each one except the last". *)
Fixpoint with_pops (compiled : list (list item)) : list item :=
  match compiled with
  | [] => []
  | [c] => c
  | c :: rest => (c ++ Ins POP_TOP ANone :: with_pops rest)%list
  end.

(** The world [w] seen from a compiler instance whose [labelstate] is [ls],
    after [k] more labels were allocated. *)
Definition rebase (ls : Z) (k : nat) (w : world) : world :=
  mkWorld ls (frame w) (next_label w + k).

(** The result of a compilation started when [n] labels existed, with its
    labels numbered from the first one it allocated and the final state of
    the compiler left out. *)
Definition outcome (n : nat) (r : result (Code * world)) : result Code :=
  match r with
  | Ok (c, _) => Ok (relabel (fun l => (l - n)%nat) c)
  | Raise e => Raise e
  | OutOfFuel => OutOfFuel
  end.

(** The labels placed in a code list (its bare [Label] entries), the labels
    its instructions refer to, and the code lists of the code objects that
    its instructions carry. *)
Definition marks (c : list item) : list Label :=
  flat_map (fun i => match i with
                     | Lbl l => [l]
                     | Ins _ _ => []
                     end) c.

Definition targets (c : list item) : list Label :=
  flat_map (fun i => match i with
                     | Ins _ (ALabel l) => [l]
                     | _ => []
                     end) c.

Definition subcodes (c : list item) : list (list item) :=
  flat_map (fun i => match i with
                     | Ins _ (ACode k) => [Byteplay.code k]
                     | _ => []
                     end) c.

(** Every label a code list refers to is placed in that list, and none is
    placed twice. *)
Definition labels_placed (c : list item) : Prop :=
  NoDup (marks c) /\ incl (targets c) (marks c).

Definition ends_with_return (c : list item) : Prop :=
  exists c0, c = (c0 ++ [Ins RETURN_VALUE ANone])%list.

(** [P] holds of a code list and of the code lists nested in it, at every
    depth. *)
Inductive every_code (P : list item -> Prop) : list item -> Prop :=
| every_code_intro (c : list item) :
    P c -> Forall (every_code P) (subcodes c) -> every_code P c.

(** The result of a compilation, without the final state of the compiler. *)
Definition code_of (r : result (Code * world)) : result Code :=
  match r with
  | Ok (c, _) => Ok c
  | Raise e => Raise e
  | OutOfFuel => OutOfFuel
  end.

End Compiler.

(* ================================================================== *)
(** * An expr module for the examples *)
(* ================================================================== *)

Module ExprExample.
Import Bytecode.
Import Compiler.

(** bob/expr.py is not under src/.  The examples run the compiler on the
    usual layout of Scheme forms: a special form is a list, built of
    [Pair]s and ended by [None], whose head is the keyword symbol. *)
Definition car (e : obj) : option obj :=
  match e with
  | Pair a _ => Some a
  | _ => None
  end.

Definition cdr (e : obj) : option obj :=
  match e with
  | Pair _ b => Some b
  | _ => None
  end.

Definition then_ (f g : obj -> option obj) (e : obj) : option obj :=
  match f e with
  | Some x => g x
  | None => None
  end.

Definition cadr : obj -> option obj := then_ cdr car.
Definition cddr : obj -> option obj := then_ cdr cdr.
Definition caddr : obj -> option obj := then_ cddr car.
Definition cdddr : obj -> option obj := then_ cddr cdr.

Definition is_tagged_list (tag : string) (e : obj) : bool :=
  match e with
  | Pair (Symbol s) _ => String.eqb s tag
  | _ => false
  end.

Fixpoint pairs_to_list (e : obj) : list obj :=
  match e with
  | Pair a b => a :: pairs_to_list b
  | _ => []
  end.

Fixpoint list_to_pairs (l : list obj) : obj :=
  match l with
  | [] => PyNone
  | x :: r => Pair x (list_to_pairs r)
  end.

Definition sequence_to_expr (seq : obj) : obj :=
  match seq with
  | Pair a PyNone => a
  | Pair _ _ => Pair (Symbol "begin") seq
  | other => other
  end.

Fixpoint expand_cond_clauses (clauses : obj) : option obj :=
  match clauses with
  | Pair (Pair (Symbol "else") actions) PyNone =>
      Some (sequence_to_expr actions)
  | Pair (Pair predicate actions) rest =>
      match expand_cond_clauses rest with
      | Some alternative =>
          Some (list_to_pairs [Symbol "if"; predicate;
                               sequence_to_expr actions; alternative])
      | None => None
      end
  | PyNone => Some (Boolean false)
  | _ => None
  end.

Fixpoint option_all (l : list (option obj)) : option (list obj) :=
  match l with
  | [] => Some []
  | Some x :: r =>
      match option_all r with
      | Some xs => Some (x :: xs)
      | None => None
      end
  | None :: _ => None
  end.

Definition let_to_application (e : obj) : option obj :=
  match cadr e, cddr e with
  | Some bindings, Some body =>
      match option_all (map car (pairs_to_list bindings)),
            option_all (map cadr (pairs_to_list bindings)) with
      | Some names, Some values =>
          Some (Pair (Pair (Symbol "lambda") (Pair (list_to_pairs names) body))
                  (list_to_pairs values))
      | _, _ => None
      end
  | _, _ => None
  end.

#[export] Instance tagged_lists : ExprModule := {|
  is_self_evaluating :=
    fun e => match e with Number _ | Boolean _ => true | _ => false end;
  is_variable := fun e => match e with Symbol _ => true | _ => false end;
  is_quoted := is_tagged_list "quote";
  text_of_quotation := cadr;
  is_assignment := is_tagged_list "set!";
  assignment_value := caddr;
  assignment_variable := cadr;
  is_definition := is_tagged_list "define";
  definition_value := caddr;
  definition_variable := cadr;
  is_if := is_tagged_list "if";
  if_predicate := cadr;
  if_consequent := caddr;
  if_alternative :=
    fun e => match cdddr e with
             | Some PyNone => Some (Boolean false)
             | Some rest => car rest
             | None => None
             end;
  is_cond := is_tagged_list "cond";
  convert_cond_to_ifs := then_ cdr expand_cond_clauses;
  is_let := is_tagged_list "let";
  convert_let_to_application := let_to_application;
  is_lambda := is_tagged_list "lambda";
  lambda_parameters := cadr;
  lambda_body := cddr;
  is_begin := is_tagged_list "begin";
  begin_actions := cdr;
  is_application := fun e => match e with Pair _ _ => true | _ => false end;
  application_operands := cdr;
  application_operator := car;
  expand_nested_pairs := fun e _ => Some (pairs_to_list e)
|}.

(** What the reader returns for [(define x 5) x], [(if 0 1 2)],
    [(set! y 1)] and [(begin 1 2 3)]. *)
Definition sexp (l : list obj) : obj := list_to_pairs l.

Definition define_x_5_x : list obj :=
  [sexp [Symbol "define"; Symbol "x"; Number 5]; Symbol "x"].

Definition if_0_1_2 : list obj :=
  [sexp [Symbol "if"; Number 0; Number 1; Number 2]].

Definition set_y_1_expr : obj := sexp [Symbol "set!"; Symbol "y"; Number 1].

Definition set_y_1 : list obj := [set_y_1_expr].

(** The code that the compiler emits for [(set! y 1) 2]. *)
Definition set_y_1_then_2_code : Byteplay.Code :=
  Byteplay.mkCode
    [Byteplay.Ins Byteplay.LOAD_CONST (Byteplay.AInt 1);
     Byteplay.Ins Byteplay.STORE_FAST (Byteplay.AStr "y");
     Byteplay.Ins Byteplay.POP_TOP Byteplay.ANone;
     Byteplay.Ins Byteplay.LOAD_CONST (Byteplay.AInt 2);
     Byteplay.Ins Byteplay.RETURN_VALUE Byteplay.ANone]
    [] [] false false false "__main__" "<scheme>>" 0 None.

Definition begin_1_2_3 : list obj :=
  [sexp [Symbol "begin"; Number 1; Number 2; Number 3]].

(** [((lambda (a) (if a 1 2)) 0)]. *)
Definition apply_lambda_if : list obj :=
  [sexp [sexp [Symbol "lambda"; sexp [Symbol "a"];
               sexp [Symbol "if"; Symbol "a"; Number 1; Number 2]];
         Number 0]].

(** The code that the compiler emits for it. *)
Definition lambda_if_body : list Byteplay.item :=
  [Byteplay.Ins Byteplay.LOAD_NAME (Byteplay.AStr "a");
   Byteplay.Ins Byteplay.POP_JUMP_IF_FALSE (Byteplay.ALabel 0%nat);
   Byteplay.Ins Byteplay.LOAD_CONST (Byteplay.AInt 1);
   Byteplay.Ins Byteplay.JUMP_ABSOLUTE (Byteplay.ALabel 1%nat);
   Byteplay.Lbl 0%nat;
   Byteplay.Ins Byteplay.LOAD_CONST (Byteplay.AInt 2);
   Byteplay.Lbl 1%nat;
   Byteplay.Ins Byteplay.RETURN_VALUE Byteplay.ANone].

Definition apply_lambda_if_items : list Byteplay.item :=
  [Byteplay.Ins Byteplay.LOAD_CONST
     (Byteplay.ACode
        (Byteplay.mkCode lambda_if_body [] ["a"] false false true
           "lambda" "<<scheme>>" 0 None));
   Byteplay.Ins Byteplay.MAKE_FUNCTION (Byteplay.AInt 0);
   Byteplay.Ins Byteplay.LOAD_CONST (Byteplay.AInt 0);
   Byteplay.Ins Byteplay.CALL_FUNCTION (Byteplay.AInt 1)].

Definition apply_lambda_if_code : Byteplay.Code :=
  Byteplay.mkCode
    (apply_lambda_if_items
     ++ [Byteplay.Ins Byteplay.RETURN_VALUE Byteplay.ANone])%list
    [] [] false false false "__main__" "<scheme>>" 0 None.

(** The compiler whose frame [compile] has set, when [n] labels exist. *)
Definition compiled_world (n : nat) : world :=
  mkWorld 0 (Some (GlobalFrame [])) n.

End ExprExample.

(* ================================================================== *)
(** * bob2py.py *)
(* ================================================================== *)

Module Bob2py.
Import Bytecode.
Import Byteplay.

Inductive exn : Type :=
| KeyError (key : string)
| IndexError
| TypeError
| AssertionError.

Inductive result (A : Type) : Type :=
| Ok (a : A)
| Raise (e : exn).
Arguments Ok {A}.
Arguments Raise {A}.

(** The functions registered in [CodeGenerator.builtins]. *)
Inductive builtin : Type := bi_add.

(** The second component of an entry of [Environment.vars]: the method of a
    builtin, or the index of an argument or local. *)
Inductive varg : Type :=
| Method (m : builtin)
| Index (i : Z).

(** [class Environment]; the dict [vars] maps a name to [(type, arg)]. *)
Inductive Environment : Type :=
| mkEnvironment (parent : option Environment) (locals : list string)
    (vars : list (string * (string * varg))).

Definition parent (env : Environment) : option Environment :=
  match env with mkEnvironment p _ _ => p end.
Definition locals (env : Environment) : list string :=
  match env with mkEnvironment _ l _ => l end.
Definition vars (env : Environment) : list (string * (string * varg)) :=
  match env with mkEnvironment _ _ v => v end.

(** [self.vars[name]]. *)
Fixpoint dict_get {V : Type} (d : list (string * V)) (key : string)
  : option V :=
  match d with
  | [] => None
  | (k, v) :: r => if String.eqb k key then Some v else dict_get r key
  end.

(** [Environment(parent)]. *)
Definition new_environment (p : option Environment) : Environment :=
  mkEnvironment p [] [].

(** [Environment.set_var]. *)
Definition set_var (env : Environment) (name type : string) (arg : varg)
  : result Environment :=
  match dict_get (vars env) name with
  | Some _ => Raise AssertionError
  | None =>
      Ok (mkEnvironment (parent env) (locals env)
            ((name, (type, arg)) :: vars env))
  end.

(** [Environment.lookup_var]: the first binding of the name along the chain
    of parents; [KeyError] when the chain has none. *)
Fixpoint lookup_var (env : Environment) (name : string)
  : result (string * varg) :=
  match env with
  | mkEnvironment p _ vs =>
      match dict_get vs name with
      | Some v => Ok v
      | None =>
          match p with
          | Some penv => lookup_var penv name
          | None => Raise (KeyError "Unknown variable")
          end
      end
  end.

(** The attributes of a [CodeGenerator] that the operand translations
    write. *)
Record CodeGenerator : Type := mkCodeGenerator {
  ops : list (Opcode * pyarg);
  scheme_functions : list (Label * CodeObject * string)
}.

(** [CodeGenerator.instr]: [self.ops.append((op, arg))]. *)
Definition instr (self : CodeGenerator) (op : Opcode) (arg : pyarg)
  : CodeGenerator :=
  mkCodeGenerator (ops self ++ [(op, arg)])%list (scheme_functions self).

(** [lst[i]] for a Python list: a negative index counts from the end. *)
Definition getitem {A : Type} (lst : list A) (i : option Z) : result A :=
  match i with
  | None => Raise TypeError
  | Some z =>
      let n := Z.of_nat (List.length lst) in
      let j := if z <? 0 then z + n else z in
      if (0 <=? j) && (j <? n) then
        match nth_error lst (Z.to_nat j) with
        | Some a => Ok a
        | None => Raise IndexError
        end
      else Raise IndexError
  end.

(** [CodeGenerator.op_storevar].  Its body is the comment
    "TODO: need to set in appropriate scope; fail if not already defined"
    and one statement: [self.instr(STORE_FAST, bobcode.varnames[instr.arg])]. *)
Definition op_storevar (self : CodeGenerator) (env : Environment)
  (bobcode : CodeObject) (i : Instruction) : result CodeGenerator :=
  match getitem (varnames bobcode) (arg i) with
  | Ok name => Ok (instr self STORE_FAST (AObj name))
  | Raise e => Raise e
  end.

(** The global environment that [generate] builds: the builtins. *)
Definition global_environment : result Environment :=
  set_var (new_environment None) "+" "BUILTIN" (Method bi_add).

(** The names bound along the chain of parents, innermost first. *)
Fixpoint chain_vars (env : Environment) : list (string * (string * varg)) :=
  match env with
  | mkEnvironment p _ vs =>
      (vs ++ match p with
             | Some penv => chain_vars penv
             | None => []
             end)%list
  end.

(** Modelled from the spec: [utils.list_find_or_append] (bob/utils.py is not
    under src/): the name table is "append-only", an index being assigned
    "the first time a name is referenced or defined"; the index of the item
    in the list, the item being appended when the list does not hold it. *)
Fixpoint list_find_or_append (lst : list string) (item : string)
  : Z * list string :=
  match lst with
  | [] => (0, [item])
  | x :: rest =>
      if String.eqb x item then (0, lst)
      else let r := list_find_or_append rest item in
           (1 + fst r, x :: snd r)
  end.

(** [Environment.local_index]: the index bound to the name when it is bound
    in this environment (which must be as a LOCAL), otherwise the index the
    name gets in [locals], which is recorded in [vars]. *)
Definition local_index (env : Environment) (name : string)
  : result (varg * Environment) :=
  match dict_get (vars env) name with
  | Some (type, arg) =>
      if String.eqb type "LOCAL" then Ok (arg, env)
      else Raise AssertionError
  | None =>
      let r := list_find_or_append (locals env) name in
      Ok (Index (fst r),
          mkEnvironment (parent env) (snd r)
            ((name, ("LOCAL", Index (fst r))) :: vars env))
  end.

(** An entry of [varnames] is a string (the docstring of [CodeObject]):
    another object is no name. *)
Definition name_of (o : obj) : result string :=
  match o with
  | PyStr s => Ok s
  | _ => Raise TypeError
  end.

Definition instrs (self : CodeGenerator) (l : list (Opcode * pyarg))
  : CodeGenerator :=
  fold_left (fun g oa => instr g (fst oa) (snd oa)) l self.

(** [CodeGenerator.bi_add].  It asserts [instr.arg > 0] (false for [None]),
    and then, in the first round of its loop, calls [self.instr(ROT_TWO)]
    without the second argument that [instr] requires: the call raises. *)
Definition bi_add_call (self : CodeGenerator) (env : Environment)
  (bobcode : CodeObject) (i : Instruction) : result CodeGenerator :=
  match arg i with
  | Some n => if 0 <? n then Raise TypeError else Raise AssertionError
  | None => Raise AssertionError
  end.

(** The instructions [op_loadvar] emits for an argument and for a local,
    and [op_defvar] for a definition. *)
Definition load_arg_code (i : Z) : list (Opcode * pyarg) :=
  [(LOAD_FAST, AStr "S"); (LOAD_ATTR, AStr "append"); (LOAD_FAST, AStr "S");
   (LOAD_CONST, AInt (-1 - i)); (BINARY_SUBSCR, ANone);
   (CALL_FUNCTION, AInt 1); (POP_TOP, ANone)].

Definition load_local_code (i : Z) : list (Opcode * pyarg) :=
  [(LOAD_FAST, AStr "S"); (LOAD_ATTR, AStr "append"); (LOAD_FAST, AStr "F");
   (LOAD_CONST, AInt 1); (BINARY_SUBSCR, ANone); (LOAD_CONST, AInt i);
   (BINARY_SUBSCR, ANone); (CALL_FUNCTION, AInt 1); (POP_TOP, ANone)].

Definition defvar_code (i : Z) : list (Opcode * pyarg) :=
  [(LOAD_FAST, AStr "S"); (LOAD_ATTR, AStr "pop"); (CALL_FUNCTION, AInt 0);
   (LOAD_FAST, AStr "F"); (LOAD_CONST, AInt 1); (BINARY_SUBSCR, ANone);
   (LOAD_CONST, AInt i); (STORE_SUBSCR, ANone)].

(** [CodeGenerator.op_loadvar]. *)
Definition op_loadvar (self : CodeGenerator) (env : Environment)
  (bobcode : CodeObject) (i : Instruction) : result CodeGenerator :=
  match getitem (varnames bobcode) (arg i) with
  | Raise e => Raise e
  | Ok o =>
      match name_of o with
      | Raise e => Raise e
      | Ok name =>
          match lookup_var env name with
          | Raise e => Raise e
          | Ok (type, a) =>
              if String.eqb type "BUILTIN" then
                match a with
                | Method bi_add => bi_add_call self env bobcode i
                | Index _ => Raise TypeError
                end
              else if String.eqb type "ARG" then
                match a with
                | Index k => Ok (instrs self (load_arg_code k))
                | Method _ => Raise TypeError
                end
              else if String.eqb type "LOCAL" then
                match a with
                | Index k => Ok (instrs self (load_local_code k))
                | Method _ => Raise TypeError
                end
              else Raise AssertionError
          end
      end
  end.

(** [CodeGenerator.op_defvar]: the index is asked of the environment, which
    may record it, before anything is emitted. *)
Definition op_defvar (self : CodeGenerator) (env : Environment)
  (bobcode : CodeObject) (i : Instruction)
  : result (CodeGenerator * Environment) :=
  match getitem (varnames bobcode) (arg i) with
  | Raise e => Raise e
  | Ok o =>
      match name_of o with
      | Raise e => Raise e
      | Ok name =>
          match local_index env name with
          | Raise e => Raise e
          | Ok (Index k, env') => Ok (instrs self (defvar_code k), env')
          | Ok (Method _, _) => Raise TypeError
          end
      end
  end.

(** An environment whose LOCAL bindings are the positions of their names
    in [locals]. *)
Definition consistent (env : Environment) : Prop :=
  forall name type a,
    dict_get (vars env) name = Some (type, a) ->
    type = "LOCAL" ->
    exists k, a = Index k /\ 0 <= k
              /\ nth_error (locals env) (Z.to_nat k) = Some name.

(** The bytecode of [(set! y 1)]: push constant 0, store it in variable 0,
    return. *)
Definition code_set_y : CodeObject :=
  mkCodeObject (Some "") []
    [Instr (mkInstruction OP_CONST (Some 0));
     Instr (mkInstruction OP_STOREVAR (Some 0));
     Instr (mkInstruction OP_RETURN None)]
    [Number 1] [PyStr "y"].

Definition storevar_0 : Instruction := mkInstruction OP_STOREVAR (Some 0).

(** A generator that has emitted nothing yet. *)
Definition empty_generator : CodeGenerator := mkCodeGenerator [] [].

(** The environment of a function with the argument [a], in the global
    environment, and the same after [x] was defined in it. *)
Definition env_of_function : Environment :=
  mkEnvironment
    (Some (mkEnvironment None [] [("+", ("BUILTIN", Method bi_add))]))
    [] [("a", ("ARG", Index 0))].

Definition env_with_x : Environment :=
  mkEnvironment
    (Some (mkEnvironment None [] [("+", ("BUILTIN", Method bi_add))]))
    ["x"] [("x", ("LOCAL", Index 0)); ("a", ("ARG", Index 0))].

(** A code object whose variable names are [x], [a] and [+]. *)
Definition code_x_a_plus : CodeObject :=
  mkCodeObject (Some "") [PyStr "a"] [] [] [PyStr "x"; PyStr "a"; PyStr "+"].

Definition defvar_0 : Instruction := mkInstruction OP_DEFVAR (Some 0).
Definition loadvar_1 : Instruction := mkInstruction OP_LOADVAR (Some 1).

End Bob2py.

(* ================================================================== *)
(** * The host: bob/runtime.py, bob/cmd.py and the Python interpreter *)
(* ================================================================== *)

Module Host.
Import Bytecode.
Import Byteplay.

(** The Python values that compiled code puts on the interpreter's stack. *)
Inductive value : Type :=
| VNone
| VBool (b : bool)
| VInt (z : Z)
| VStr (s : string)
| VCode (c : Code)
| VFunction (c : Code).

(** Python's [+] on numbers; a bool counts as the int 0 or 1. *)
Definition as_int (v : value) : option Z :=
  match v with
  | VInt z => Some z
  | VBool b => Some (if b then 1 else 0)
  | _ => None
  end.

Definition py_add (a b : value) : option value :=
  match as_int a, as_int b with
  | Some x, Some y => Some (VInt (x + y))
  | _, _ => None
  end.

(** Python's [sum(args)]: start from 0 and add the items left to right; an
    item that cannot be added raises. *)
Fixpoint sum_from (start : value) (items : list value) : option value :=
  match items with
  | [] => Some start
  | x :: rest =>
      match py_add start x with
      | Some acc => sum_from acc rest
      | None => None
      end
  end.

Definition sum (items : list value) : option value := sum_from (VInt 0) items.

(** A call of a host procedure: the returned value and the objects it
    printed; [None] when it raises. *)
Definition procedure : Type := list value -> option (value * list (list value)).

(** bob/runtime.py: [add], defined with a star-parameter [args] to return [sum(args)], and
    [def write(obj): print obj]. *)
Definition add : procedure :=
  fun args =>
    match sum args with
    | Some v => Some (v, [])
    | None => None
    end.

Definition write : procedure :=
  fun args =>
    match args with
    | [obj] => Some (VNone, [[obj]])
    | _ => None
    end.

(** The objects bound in the namespace of the runtime module. *)
Inductive modval : Type :=
| MNames (l : list string)
| MDecorator
| MProc (name : string) (p : procedure)
| MStr (s : string).

Definition namespace : Type := list (string * modval).

Fixpoint ns_get (g : namespace) (key : string) : option modval :=
  match g with
  | [] => None
  | (k, v) :: r => if String.eqb k key then Some v else ns_get r key
  end.

(** [globals()[key] = v]. *)
Fixpoint ns_set (g : namespace) (key : string) (v : modval) : namespace :=
  match g with
  | [] => [(key, v)]
  | (k, x) :: r =>
      if String.eqb k key then (k, v) :: r else (k, x) :: ns_set r key v
  end.

(** [del globals()[key]]; [None] is the KeyError. *)
Fixpoint ns_del (g : namespace) (key : string) : option namespace :=
  match g with
  | [] => None
  | (k, x) :: r =>
      if String.eqb k key then Some r
      else match ns_del r key with
           | Some r' => Some ((k, x) :: r')
           | None => None
           end
  end.

(** [@non_identifier(sym) def f ...], for a function named [func_name]: the
    decorator binds [sym] to [f] and appends [func_name] to [__to_del]; the
    [def] statement then binds [func_name] to what the decorator
    returned, [f]. *)
Definition decorated_def (g : namespace) (sym func_name : string)
  (p : procedure) : option namespace :=
  match ns_get g "non_identifier", ns_get g "__to_del" with
  | Some MDecorator, Some (MNames l) =>
      let g1 := ns_set g sym (MProc func_name p) in
      let g2 := ns_set g1 "__to_del" (MNames (l ++ [func_name])%list) in
      Some (ns_set g2 func_name (MProc func_name p))
  | _, _ => None
  end.

(** [for d in __to_del: del globals()[d]], over the names of the list as it
    is when the loop starts; the loop variable [d] is itself a global. *)
Fixpoint clean_up (names : list string) (g : namespace) : option namespace :=
  match names with
  | [] => Some g
  | d :: rest =>
      match ns_del (ns_set g "d" (MStr d)) d with
      | Some g' => clean_up rest g'
      | None => None
      end
  end.

(** The body of bob/runtime.py, statement by statement, from an empty
    namespace. *)
Definition runtime_module : option namespace :=
  let g0 := ns_set [] "__to_del" (MNames ["__to_del"; "non_identifier"]) in
  let g1 := ns_set g0 "non_identifier" MDecorator in
  match decorated_def g1 "+" "add" add with
  | None => None
  | Some g2 =>
      let g3 := ns_set g2 "write" (MProc "write" write) in
      match ns_get g3 "__to_del" with
      | Some (MNames names) =>
          match clean_up names g3 with
          | Some g4 => ns_del g4 "d"
          | None => None
          end
      | _ => None
      end
  end.

(** bob/cmd.py, [run_compiled]: the globals given to [eval]:
    [{'+': lambda *args: sum(args), 'write': lambda *args: print(args)}]. *)
Definition lambda_sum : procedure :=
  fun args =>
    match sum args with
    | Some v => Some (v, [])
    | None => None
    end.

Definition lambda_print : procedure :=
  fun args => Some (VNone, [args]).

Definition run_compiled_globals : list (string * procedure) :=
  [("+", lambda_sum); ("write", lambda_print)].

Fixpoint lookup (g : list (string * procedure)) (key : string)
  : option procedure :=
  match g with
  | [] => None
  | (k, v) :: r => if String.eqb k key then Some v else lookup r key
  end.

(** The sum of the numbers of a list. *)
Definition total (zs : list Z) : Z := fold_right Z.add 0 zs.

(** The numbers that the items stand for, when all of them are numbers. *)
Fixpoint ints_of (items : list value) : option (list Z) :=
  match items with
  | [] => Some []
  | x :: rest =>
      match as_int x, ints_of rest with
      | Some z, Some zs => Some (z :: zs)
      | _, _ => None
      end
  end.

End Host.

(* ================================================================== *)
(** * bob/cmd.py: the dispatch of [main] *)
(* ================================================================== *)

Module Cmd.

(** What [parser.parse_args] returns: the two flags, the output name and the
    positional file name ([None] when the command line has none). *)
Record Namespace : Type := mkNamespace {
  compile : bool;
  disassemble : bool;
  output : option string;
  filename : option string
}.

(** What [main] goes on to do: [parser.error] (which exits) or one call. *)
Inductive action : Type :=
| ParserError (message : string)
| InteractiveInterpreter
| CompileFile (filename : string) (out_filename : option string)
    (disassemble : bool)
| DisassembleFile (filename : string)
| InterpretFile (filename : string)
| RunCompiled (filename : string).

(** [s.endswith(suffix)]. *)
Definition endswith (s suffix : string) : bool :=
  (String.length suffix <=? String.length s)%nat
  && String.eqb
       (substring (String.length s - String.length suffix)
          (String.length suffix) s)
       suffix.

(** [main]; [not args.filename] holds of [None] and of the empty string. *)
Definition main (args : Namespace) : action :=
  match filename args with
  | None | Some EmptyString =>
      if compile args then ParserError "specify a source file to compile"
      else InteractiveInterpreter
  | Some f =>
      let is_scm := endswith f ".scm" in
      if compile args then
        if negb is_scm then ParserError "can only compile .scm files"
        else CompileFile f (output args) (disassemble args)
      else if disassemble args then
        if is_scm then ParserError "can only disassemble bytecode files"
        else DisassembleFile f
      else if is_scm then InterpretFile f
      else RunCompiled f
  end.

End Cmd.

(* ================================================================== *)
(** * tests_full/testcases_utils.py *)
(* ================================================================== *)

Module TestcasesUtils.

(** [class TestCase]. *)
Record TestCase : Type := mkTestCase {
  name : string;
  code : string;
  expected : string
}.


(** The characters that [str.lstrip()] strips: space, tab, newline, return,
    vertical tab, form feed. *)
Definition is_space (c : ascii) : bool :=
  let n := N_of_ascii c in
  (N.eqb n 32 || N.eqb n 9 || N.eqb n 10 || N.eqb n 13 || N.eqb n 11
   || N.eqb n 12)%bool.

Fixpoint lstrip (s : string) : string :=
  match s with
  | EmptyString => EmptyString
  | String c r => if is_space c then lstrip r else s
  end.



(** A runner, called as [runner(testcase.code, ostream)]: what the stream
    holds when the call returns, [None] when the call raises. *)
Definition Runner : Type := string -> option string.

(** Whether the runner returns for the test case and the output it wrote is
    the expected text without its leading white space. *)
Definition passes (runner : Runner) (t : TestCase) : bool :=
  match runner (code t) with
  | Some got => String.eqb got (lstrip (expected t))
  | None => false
  end.










End TestcasesUtils.

(* ================================================================== *)
(** * Properties of the serializer *)
(* ================================================================== *)

Section BytecodeFacts.
Import Bytecode.

(** ** Byte strings *)

Lemma append_assoc (a b c : string) : (a ++ b) ++ c = a ++ (b ++ c).
Proof.
  induction a as [|x a IH]; simpl; [reflexivity|].
  now rewrite IH.
Qed.

Lemma length_append (a b : string) :
  String.length (a ++ b) = (String.length a + String.length b)%nat.
Proof.
  induction a as [|x a IH]; simpl; [reflexivity|].
  now rewrite IH.
Qed.

Lemma len_append (a b : string) : len (a ++ b) = len a + len b.
Proof.
  unfold len. rewrite length_append. lia.
Qed.

Lemma len_nonneg (s : string) : 0 <= len s.
Proof.
  unfold len. lia.
Qed.

Lemma split_at_append (a b : string) :
  split_at (String.length a) (a ++ b) = Some (a, b).
Proof.
  induction a as [|x a IH]; simpl; [reflexivity|].
  now rewrite IH.
Qed.

Lemma split_at_len (a b : string) :
  split_at (Z.to_nat (len a)) (a ++ b) = Some (a, b).
Proof.
  unfold len. rewrite Nat2Z.id. apply split_at_append.
Qed.

(** ** Words *)

Lemma ord_chr (z : Z) : ord (chr z) = z mod 256.
Proof.
  unfold ord, chr.
  assert (H : 0 <= z mod 256 < 256) by (apply Z.mod_pos_bound; lia).
  rewrite N_ascii_embedding by lia.
  lia.
Qed.

Lemma word_bytes (w : Z) :
  0 <= w < 2 ^ 32 ->
  w mod 256 + 2 ^ 8 * ((w / 2 ^ 8) mod 256) + 2 ^ 16 * ((w / 2 ^ 16) mod 256)
  + 2 ^ 24 * ((w / 2 ^ 24) mod 256) = w.
Proof.
  intros H.
  replace (w / 2 ^ 16) with (w / 2 ^ 8 / 2 ^ 8)
    by (rewrite Z.div_div by lia; reflexivity).
  replace (w / 2 ^ 24) with (w / 2 ^ 8 / 2 ^ 8 / 2 ^ 8)
    by (rewrite !Z.div_div by lia; reflexivity).
  change (2 ^ 8) with 256. change (2 ^ 16) with 65536.
  change (2 ^ 24) with 16777216. change (2 ^ 32) with 4294967296 in H.
  Z.to_euclidean_division_equations. lia.
Qed.

Lemma pack_word_some (w : Z) :
  0 <= w < 2 ^ 32 ->
  pack_word w =
  Some (String (chr w) (String (chr (w / 2 ^ 8)) (String (chr (w / 2 ^ 16))
         (String (chr (w / 2 ^ 24)) EmptyString)))).
Proof.
  intros H. unfold pack_word.
  destruct (Z.leb_spec 0 w); [|lia].
  destruct (Z.ltb_spec w (2 ^ 32)); [|lia].
  reflexivity.
Qed.

Lemma pack_word_none (w : Z) : ~ 0 <= w < 2 ^ 32 -> pack_word w = None.
Proof.
  intros H. unfold pack_word.
  destruct (Z.leb_spec 0 w); destruct (Z.ltb_spec w (2 ^ 32));
    simpl; try reflexivity; lia.
Qed.

Lemma pack_word_inv (w : Z) (p : string) :
  pack_word w = Some p -> 0 <= w < 2 ^ 32.
Proof.
  unfold pack_word.
  destruct (Z.leb_spec 0 w); destruct (Z.ltb_spec w (2 ^ 32));
    simpl; try discriminate; lia.
Qed.

Lemma pack_word_length (w : Z) (p : string) :
  pack_word w = Some p -> String.length p = 4%nat.
Proof.
  intros H. pose proof (pack_word_inv _ _ H) as R.
  rewrite (pack_word_some _ R) in H. injection H as <-. reflexivity.
Qed.

Lemma unpack_pack (w : Z) (p rest : string) :
  pack_word w = Some p -> unpack_word (p ++ rest) = Some (w, rest).
Proof.
  intros H. pose proof (pack_word_inv _ _ H) as R.
  rewrite (pack_word_some _ R) in H. injection H as <-.
  cbn [append unpack_word]. rewrite !ord_chr.
  do 2 f_equal. exact (word_bytes _ R).
Qed.

(** ** The instruction word *)

Lemma shiftl_land_disjoint (a b : Z) :
  Z.land (Z.shiftl a 24) (b mod 2 ^ 24) = 0.
Proof.
  apply Z.bits_inj'. intros n Hn.
  rewrite Z.land_spec, Z.bits_0.
  destruct (Z.ltb_spec n 24).
  - rewrite Z.shiftl_spec_low by lia. reflexivity.
  - rewrite Z.mod_pow2_bits_high by lia. apply andb_false_r.
Qed.

Lemma instr_word_eq (i : Instruction) :
  instr_word i = opcode i * 2 ^ 24 + arg_or_0 (arg i) mod 2 ^ 24.
Proof.
  unfold instr_word.
  change 0xFFFFFF with (Z.ones 24).
  rewrite Z.land_ones by lia.
  pose proof (Z.add_lor_land (Z.shiftl (opcode i) 24)
                (arg_or_0 (arg i) mod 2 ^ 24)) as H.
  rewrite shiftl_land_disjoint in H.
  rewrite Z.shiftl_mul_pow2 in H |- * by lia.
  lia.
Qed.

Lemma instr_word_range (i : Instruction) :
  0 <= opcode i < 256 -> 0 <= instr_word i < 2 ^ 32.
Proof.
  intros H. rewrite instr_word_eq.
  pose proof (Z.mod_pos_bound (arg_or_0 (arg i)) (2 ^ 24) ltac:(lia)).
  change (2 ^ 32) with (256 * 2 ^ 24). nia.
Qed.

Lemma instr_word_high (i : Instruction) :
  0 <= opcode i -> instr_word i / 2 ^ 24 = opcode i.
Proof.
  intros H. rewrite instr_word_eq.
  pose proof (Z.mod_pos_bound (arg_or_0 (arg i)) (2 ^ 24) ltac:(lia)).
  rewrite Z.add_comm, Z.div_add by lia.
  rewrite Z.div_small by lia. lia.
Qed.

Lemma instr_word_low (i : Instruction) :
  instr_word i mod 2 ^ 24 = arg_or_0 (arg i) mod 2 ^ 24.
Proof.
  rewrite instr_word_eq.
  rewrite Z.add_comm, Z.mod_add by lia.
  apply Z.mod_mod. lia.
Qed.

(** The four bytes of the instruction word, low byte first: three bytes of
    the truncated argument, then the opcode. *)
Lemma instr_word_packed (i : Instruction) :
  0 <= opcode i < 256 ->
  pack_word (instr_word i) =
  Some (String (chr (arg_or_0 (arg i) mod 2 ^ 24))
       (String (chr (arg_or_0 (arg i) mod 2 ^ 24 / 2 ^ 8))
       (String (chr (arg_or_0 (arg i) mod 2 ^ 24 / 2 ^ 16))
       (String (chr (opcode i)) EmptyString)))).
Proof.
  intros H.
  rewrite (pack_word_some _ (instr_word_range i H)).
  rewrite instr_word_high by lia.
  assert (E : forall k, k = 1 \/ k = 2 ^ 8 \/ k = 2 ^ 16 ->
            chr (instr_word i / k) =
            chr (arg_or_0 (arg i) mod 2 ^ 24 / k)).
  { intros k Hk. unfold chr. do 2 f_equal.
    rewrite instr_word_eq.
    set (a := arg_or_0 (arg i) mod 2 ^ 24).
    assert (D : opcode i * 2 ^ 24 = (opcode i * (2 ^ 24 / k)) * k).
    { destruct Hk as [->|[->| ->]]; change (2 ^ 24) with 16777216;
        [change (16777216 / 1) with 16777216
        |change (2 ^ 8) with 256; change (16777216 / 256) with 65536
        |change (2 ^ 16) with 65536; change (16777216 / 65536) with 256];
        lia. }
    rewrite D.
    assert (Kpos : 0 < k) by (destruct Hk as [->|[->| ->]]; lia).
    rewrite Z.add_comm, Z.div_add by lia.
    assert (Q : (opcode i * (2 ^ 24 / k)) mod 256 = 0).
    { destruct Hk as [->|[->| ->]].
      - change (2 ^ 24 / 1) with (65536 * 256).
        rewrite Z.mul_assoc. apply Z.mod_mul. lia.
      - change (2 ^ 24 / 2 ^ 8) with (256 * 256).
        rewrite Z.mul_assoc. apply Z.mod_mul. lia.
      - change (2 ^ 24 / 2 ^ 16) with (1 * 256).
        rewrite Z.mul_assoc. apply Z.mod_mul. lia. }
    rewrite Z.add_mod by lia. rewrite Q, Z.add_0_r.
    apply Z.mod_mod. lia. }
  rewrite <- (Z.div_1_r (instr_word i)) at 1.
  rewrite (E 1) by lia. rewrite Z.div_1_r.
  rewrite (E (2 ^ 8)) by lia. rewrite (E (2 ^ 16)) by lia.
  reflexivity.
Qed.

Lemma opcodes_are_bytes : Forall (fun op => 0 <= op < 256) opcodes.
Proof.
  unfold opcodes. repeat constructor; cbv; discriminate.
Qed.

Lemma s_instruction_bytes (i : Instruction) :
  0 <= opcode i < 256 ->
  _s_instruction i =
  Some (String "i"
       (String (chr (arg_or_0 (arg i) mod 2 ^ 24))
       (String (chr (arg_or_0 (arg i) mod 2 ^ 24 / 2 ^ 8))
       (String (chr (arg_or_0 (arg i) mod 2 ^ 24 / 2 ^ 16))
       (String (chr (opcode i)) EmptyString))))).
Proof.
  intros H. unfold _s_instruction, _s_word.
  rewrite (instr_word_packed i H). reflexivity.
Qed.

(** ** Decoding what was encoded *)

(** Induction over [obj], with the hypothesis for every element of the
    nested lists. *)
Section ObjInduction.
Variable P : obj -> Prop.
Hypothesis HNone : P PyNone.
Hypothesis HBoolean : forall b, P (Boolean b).
Hypothesis HNumber : forall z, P (Number z).
Hypothesis HSymbol : forall s, P (Symbol s).
Hypothesis HPair : forall a b, P a -> P b -> P (Pair a b).
Hypothesis HInstr : forall i, P (Instr i).
Hypothesis HCode : forall n a cd k v,
  Forall P a -> Forall P cd -> Forall P k -> Forall P v ->
  P (CodeObj (mkCodeObject n a cd k v)).
Hypothesis HList : forall l, Forall P l -> P (PyList l).
Hypothesis HStr : forall s, P (PyStr s).

Fixpoint obj_nested_ind (o : obj) : P o :=
  let all :=
    fix all (l : list obj) : Forall P l :=
      match l with
      | [] => Forall_nil P
      | x :: r => Forall_cons x (obj_nested_ind x) (all r)
      end in
  match o with
  | PyNone => HNone
  | Boolean b => HBoolean b
  | Number z => HNumber z
  | Symbol s => HSymbol s
  | Pair a b => HPair a b (obj_nested_ind a) (obj_nested_ind b)
  | Instr i => HInstr i
  | CodeObj c =>
      match c with
      | mkCodeObject n a cd k v => HCode n a cd k v (all a) (all cd) (all k) (all v)
      end
  | PyList l => HList l (all l)
  | PyStr s => HStr s
  end.
End ObjInduction.

(** The round trip of one object: it is encoded, in [enc_len] bytes, and the
    decoder reads it back from the front of any stream, given fuel for its
    length. *)
Definition reads_back (o : obj) : Prop :=
  encodable o = true ->
  exists bs,
    _s_object o = Some bs
    /\ len bs = enc_len o
    /\ (0 < String.length bs)%nat
    /\ forall fuel rest,
         (String.length bs <= fuel)%nat ->
         _d_object fuel (bs ++ rest) = Some (decoded_form o, rest).

Definition elements_read_back (l : list obj) : Prop :=
  forallb encodable l = true ->
  exists payload,
    join _s_object l = Some payload
    /\ len payload = sum_map enc_len l
    /\ forall fuel,
         (String.length payload < fuel)%nat ->
         _d_elements fuel payload = Some (map decoded_form l).

Lemma andb_split (a b : bool) : a && b = true -> a = true /\ b = true.
Proof.
  intros H. now apply andb_true_iff in H.
Qed.

Lemma elements_round_trip (l : list obj) :
  Forall reads_back l -> elements_read_back l.
Proof.
  induction 1 as [|o l Ho _ IH]; intros E.
  - exists EmptyString. split; [reflexivity|]. split; [reflexivity|].
    intros [|fuel] Hf; [simpl in Hf; lia|reflexivity].
  - simpl in E. apply andb_split in E as [Eo El].
    destruct (Ho Eo) as (bs & Sbs & Lbs & Pbs & Dbs).
    destruct (IH El) as (payload & Sp & Lp & Dp).
    exists (bs ++ payload).
    split; [simpl; rewrite Sbs; simpl; rewrite Sp; reflexivity|].
    split; [rewrite len_append; simpl; lia|].
    intros [|fuel] Hf; [lia|].
    rewrite length_append in Hf.
    destruct bs as [|c bs]; [simpl in Pbs; lia|].
    cbn [_d_elements append].
    change (String c (bs ++ payload)) with (String c bs ++ payload).
    rewrite Dbs by lia. cbn [bind fst snd].
    rewrite Dp by (simpl in Hf; lia). reflexivity.
Qed.

Lemma sequence_round_trip (l : list obj) :
  elements_read_back l ->
  forallb encodable l = true ->
  sum_map enc_len l < 2 ^ 32 ->
  exists bs,
    _s_sequence _s_object l = Some bs
    /\ len bs = 5 + sum_map enc_len l
    /\ forall fuel rest,
         (String.length bs <= fuel)%nat ->
         _d_object fuel (bs ++ rest) = Some (PyList (map decoded_form l), rest).
Proof.
  intros H E B.
  destruct (H E) as (payload & Sp & Lp & Dp).
  pose proof (len_nonneg payload) as N.
  assert (R : 0 <= len payload < 2 ^ 32) by lia.
  pose proof (pack_word_some _ R) as W.
  set (w := String (chr (len payload)) _) in W.
  exists (TYPE_SEQUENCE ++ w ++ payload).
  split; [unfold _s_sequence, _s_word; rewrite Sp; simpl; rewrite W;
          reflexivity|].
  split.
  { rewrite !len_append. unfold len at 1 2. simpl String.length. lia. }
  intros [|fuel] rest Hf; [simpl in Hf; lia|].
  change ((TYPE_SEQUENCE ++ w ++ payload) ++ rest)
    with (String "[" ((w ++ payload) ++ rest)).
  rewrite append_assoc.
  change (_d_object (S fuel) (String "[" (w ++ payload ++ rest)))
    with (p <- unpack_word (w ++ payload ++ rest) ;;
          q <- split_at (Z.to_nat (fst p)) (snd p) ;;
          l <- _d_elements fuel (fst q) ;;
          Some (PyList l, snd q)).
  rewrite (unpack_pack _ _ _ W). cbn [bind fst snd].
  rewrite split_at_len. cbn [bind fst snd].
  rewrite Dp; [reflexivity|].
  change (String.length (TYPE_SEQUENCE ++ w ++ payload))
    with (S (String.length (w ++ payload))) in Hf.
  rewrite length_append in Hf. simpl in Hf. lia.
Qed.

Lemma string_round_trip (s : string) :
  len s < 2 ^ 32 ->
  exists bs,
    _s_string s = Some bs
    /\ len bs = 5 + len s
    /\ forall fuel rest,
         (String.length bs <= fuel)%nat ->
         _d_object fuel (bs ++ rest) = Some (PyStr s, rest).
Proof.
  intros B. pose proof (len_nonneg s) as N.
  assert (R : 0 <= len s < 2 ^ 32) by lia.
  pose proof (pack_word_some _ R) as W.
  set (w := String (chr (len s)) _) in W.
  exists (TYPE_STRING ++ w ++ s).
  split; [unfold _s_string, _s_word; rewrite W; reflexivity|].
  split.
  { rewrite !len_append. unfold len at 1 2. simpl String.length. lia. }
  intros [|fuel] rest Hf; [simpl in Hf; lia|].
  change ((TYPE_STRING ++ w ++ s) ++ rest)
    with (String "s" ((w ++ s) ++ rest)).
  rewrite append_assoc.
  change (_d_object (S fuel) (String "s" (w ++ s ++ rest)))
    with (p <- unpack_word (w ++ s ++ rest) ;;
          q <- split_at (Z.to_nat (fst p)) (snd p) ;;
          Some (PyStr (fst q), snd q)).
  rewrite (unpack_pack _ _ _ W). cbn [bind fst snd].
  rewrite split_at_len. reflexivity.
Qed.

Lemma d_object_codeobject (fuel : nat) (r : string) :
  _d_object (S fuel) (String "c" r) =
  (n <- expect_str (_d_object fuel r) ;;
   a <- expect_list (_d_object fuel (snd n)) ;;
   k <- expect_list (_d_object fuel (snd a)) ;;
   v <- expect_list (_d_object fuel (snd k)) ;;
   c <- expect_list (_d_object fuel (snd v)) ;;
   Some (CodeObj (mkCodeObject (Some (fst n)) (fst a) (fst c) (fst k)
                    (fst v)),
         snd c)).
Proof.
  reflexivity.
Qed.

Lemma d_object_pair (fuel : nat) (r : string) :
  _d_object (S fuel) (String "p" r) =
  (a <- _d_object fuel r ;;
   b <- _d_object fuel (snd a) ;;
   Some (Pair (fst a) (fst b), snd b)).
Proof.
  reflexivity.
Qed.

Lemma signed32_small (z : Z) : 0 <= z < 2 ^ 31 -> signed32 z = z.
Proof.
  intros H. unfold signed32.
  destruct (Z.ltb_spec z (2 ^ 31)); lia.
Qed.

Ltac split_andb :=
  repeat match goal with
         | H : _ && _ = true |- _ => apply andb_split in H; destruct H
         end;
  repeat match goal with
         | H : (_ <=? _) = true |- _ => apply Z.leb_le in H
         | H : (_ <? _) = true |- _ => apply Z.ltb_lt in H
         end.

Lemma object_round_trip (o : obj) : reads_back o.
Proof.
  induction o using obj_nested_ind; intros E; simpl in E.
  - (* None *)
    exists "0". repeat split; [simpl; lia|].
    intros [|fuel] rest Hf; [simpl in Hf; lia|reflexivity].
  - (* Boolean *)
    exists (TYPE_BOOLEAN ++ (if b then String (chr 1) EmptyString
                             else String (chr 0) EmptyString)).
    split; [reflexivity|].
    split; [destruct b; reflexivity|].
    split; [simpl; lia|].
    intros [|fuel] rest Hf; [simpl in Hf; lia|].
    destruct b; reflexivity.
  - (* Number *)
    split_andb.
    assert (R : 0 <= z < 2 ^ 32) by lia.
    pose proof (pack_word_some _ R) as W.
    set (w := String (chr z) _) in W.
    exists (TYPE_NUMBER ++ w).
    split; [simpl; unfold _s_number, _s_word; rewrite W; reflexivity|].
    split; [reflexivity|]. split; [simpl; lia|].
    intros [|fuel] rest Hf; [simpl in Hf; lia|].
    change ((TYPE_NUMBER ++ w) ++ rest) with (String "n" (w ++ rest)).
    change (_d_object (S fuel) (String "n" (w ++ rest)))
      with (p <- unpack_word (w ++ rest) ;;
            Some (Number (signed32 (fst p)), snd p)).
    rewrite (unpack_pack _ _ _ W). cbn [bind fst snd decoded_form].
    rewrite signed32_small by lia. reflexivity.
  - (* Symbol *)
    split_andb.
    destruct (string_round_trip s ltac:(assumption)) as (bs & Sb & Lb & Db).
    exists bs. split; [exact Sb|]. split; [exact Lb|].
    split; [|exact Db].
    pose proof (len_nonneg s). unfold len in *. lia.
  - (* Pair *)
    split_andb.
    destruct (IHo1 ltac:(assumption)) as (x & Sx & Lx & Px & Dx).
    destruct (IHo2 ltac:(assumption)) as (y & Sy & Ly & Py & Dy).
    exists (TYPE_PAIR ++ x ++ y).
    split; [simpl; unfold _s_pair; rewrite Sx, Sy; reflexivity|].
    split.
    { rewrite !len_append. change (len TYPE_PAIR) with 1.
      cbn [enc_len]. lia. }
    split; [simpl; lia|].
    intros [|fuel] rest Hf; [simpl in Hf; lia|].
    change ((TYPE_PAIR ++ x ++ y) ++ rest) with (String "p" ((x ++ y) ++ rest)).
    rewrite append_assoc, d_object_pair.
    change (String.length (TYPE_PAIR ++ x ++ y))
      with (S (String.length (x ++ y))) in Hf.
    rewrite length_append in Hf.
    rewrite Dx by lia. cbn [bind fst snd].
    rewrite Dy by lia. reflexivity.
  - (* Instruction *)
    split_andb.
    assert (R : 0 <= opcode i < 256) by lia.
    pose proof (pack_word_some _ (instr_word_range i R)) as W.
    set (w := String (chr (instr_word i)) _) in W.
    exists (TYPE_INSTR ++ w).
    split; [simpl; unfold _s_instruction, _s_word; rewrite W; reflexivity|].
    split; [reflexivity|]. split; [simpl; lia|].
    intros [|fuel] rest Hf; [simpl in Hf; lia|].
    change ((TYPE_INSTR ++ w) ++ rest) with (String "i" (w ++ rest)).
    change (_d_object (S fuel) (String "i" (w ++ rest)))
      with (p <- unpack_word (w ++ rest) ;;
            Some (Instr (mkInstruction (fst p / 2 ^ 24)
                                       (Some (fst p mod 2 ^ 24))), snd p)).
    rewrite (unpack_pack _ _ _ W). cbn [bind fst snd decoded_form].
    rewrite instr_word_high by lia. rewrite instr_word_low.
    rewrite Z.mod_small by lia. reflexivity.
  - (* CodeObject *)
    destruct n as [n|]; [|discriminate].
    split_andb.
    destruct (string_round_trip n ltac:(assumption)) as (xn & Sn & Ln & Dn).
    destruct (sequence_round_trip a (elements_round_trip a H)
                ltac:(assumption) ltac:(assumption)) as (xa & Sa & La & Da).
    destruct (sequence_round_trip k (elements_round_trip k H1)
                ltac:(assumption) ltac:(assumption)) as (xk & Sk & Lk & Dk).
    destruct (sequence_round_trip v (elements_round_trip v H2)
                ltac:(assumption) ltac:(assumption)) as (xv & Sv & Lv & Dv).
    destruct (sequence_round_trip cd (elements_round_trip cd H0)
                ltac:(assumption) ltac:(assumption)) as (xc & Sc & Lc & Dc).
    exists (TYPE_CODEOBJECT ++ xn ++ xa ++ xk ++ xv ++ xc).
    split.
    { simpl. unfold _s_codeobject.
      cbn [name args code constants varnames bind].
      rewrite Sn, Sa, Sk, Sv, Sc. reflexivity. }
    assert (LL : len (TYPE_CODEOBJECT ++ xn ++ xa ++ xk ++ xv ++ xc)
                 = 1 + len xn + len xa + len xk + len xv + len xc).
    { rewrite !len_append. change (len TYPE_CODEOBJECT) with 1. lia. }
    split; [rewrite LL; cbn [enc_len]; lia|].
    split; [simpl; lia|].
    intros [|fuel] rest Hf; [simpl in Hf; lia|].
    assert (Hf' : 1 + len xn + len xa + len xk + len xv + len xc
                  <= Z.of_nat (S fuel)).
    { rewrite <- LL. unfold len. lia. }
    unfold len in Hf'.
    change ((TYPE_CODEOBJECT ++ xn ++ xa ++ xk ++ xv ++ xc) ++ rest)
      with (String "c" ((xn ++ xa ++ xk ++ xv ++ xc) ++ rest)).
    rewrite !append_assoc, d_object_codeobject.
    rewrite Dn by lia. cbn [expect_str bind fst snd].
    rewrite Da by lia. cbn [expect_list bind fst snd].
    rewrite Dk by lia. cbn [expect_list bind fst snd].
    rewrite Dv by lia. cbn [expect_list bind fst snd].
    rewrite Dc by lia. reflexivity.
  - (* list *)
    split_andb.
    destruct (sequence_round_trip l (elements_round_trip l H)
                ltac:(assumption) ltac:(assumption)) as (bs & Sb & Lb & Db).
    exists bs. split; [exact Sb|]. split; [cbn [enc_len]; lia|].
    split; [|exact Db].
    assert (0 <= sum_map enc_len l).
    { destruct (elements_round_trip l H ltac:(assumption))
        as (payload & _ & Lp & _).
      rewrite <- Lp. apply len_nonneg. }
    unfold len in Lb. lia.
  - (* str *)
    split_andb.
    destruct (string_round_trip s ltac:(assumption)) as (bs & Sb & Lb & Db).
    exists bs. split; [exact Sb|]. split; [exact Lb|].
    split; [|exact Db].
    pose proof (len_nonneg s). unfold len in *. lia.
Qed.







(** On a code object without a name the serializer raises. *)
Lemma serialize_nameless_raises (c : CodeObject) :
  name c = None -> serialize_bytecode c = None.
Proof.
  intros N. unfold serialize_bytecode, _s_codeobject. rewrite N.
  destruct (_s_word MAGIC_CONST); reflexivity.
Qed.



(** C2 (amended).  Serializing an instruction whose opcode is a byte always
    succeeds: the output is the tag byte ['i'] and the four bytes of a
    little-endian word, the low three holding the argument reduced modulo
    2^24 (its two's-complement truncation; an absent argument counts as 0)
    and the high one the opcode.  An argument that does not fit in 24 bits
    is truncated, it does not make the encoding fail. *)
Theorem s_instruction_truncates (i : Instruction) :
  0 <= opcode i < 256 ->
  _s_instruction i =
  Some (String "i"
       (String (chr (arg_or_0 (arg i) mod 2 ^ 24))
       (String (chr (arg_or_0 (arg i) mod 2 ^ 24 / 2 ^ 8))
       (String (chr (arg_or_0 (arg i) mod 2 ^ 24 / 2 ^ 16))
       (String (chr (opcode i)) EmptyString)))))
  /\ unpack_word
       (String (chr (arg_or_0 (arg i) mod 2 ^ 24))
       (String (chr (arg_or_0 (arg i) mod 2 ^ 24 / 2 ^ 8))
       (String (chr (arg_or_0 (arg i) mod 2 ^ 24 / 2 ^ 16))
       (String (chr (opcode i)) EmptyString))))
     = Some (opcode i * 2 ^ 24 + arg_or_0 (arg i) mod 2 ^ 24, EmptyString).
Proof.
  intros H. split; [exact (s_instruction_bytes i H)|].
  pose proof (instr_word_packed i H) as P.
  pose proof (unpack_pack _ _ EmptyString P) as U.
  rewrite instr_word_eq in U. exact U.
Qed.

Lemma s_instruction_truncates_witness :
  0 <= opcode (mkInstruction OP_CALL (Some 34)) < 256
  /\ _s_instruction (mkInstruction OP_CALL (Some 34))
     = Some (String "i" (String (chr 34) (String (chr 0) (String (chr 0)
              (String (chr 0x51) EmptyString))))).
Proof.
  split.
  - simpl. unfold OP_CALL. lia.
  - apply (s_instruction_truncates (mkInstruction OP_CALL (Some 34))).
    simpl. unfold OP_CALL. lia.
Defined.

(** C2 (as stated) fails: a jump to offset 2^24 + 1 does not fit in 24 bits,
    yet it is encoded, as the very bytes of a jump to offset 1. *)
Lemma s_instruction_overflow_accepted :
  ~ (- 2 ^ 24 < 2 ^ 24 + 1 < 2 ^ 24)
  /\ _s_instruction (mkInstruction OP_JUMP (Some (2 ^ 24 + 1)))
     = Some (String "i" (String (chr 1) (String (chr 0) (String (chr 0)
              (String (chr 0x40) EmptyString)))))
  /\ _s_instruction (mkInstruction OP_JUMP (Some (2 ^ 24 + 1)))
     = _s_instruction (mkInstruction OP_JUMP (Some 1)).
Proof.
  split; [lia|]. split; reflexivity.
Qed.

(** C10.  For every opcode (a byte), an instruction without argument is
    serialized to the same bytes as the instruction with argument 0: the tag,
    three zero bytes and the opcode byte.  The serialization never fails. *)
Theorem s_instruction_no_arg (op : Z) :
  0 <= op < 256 ->
  _s_instruction (mkInstruction op None)
  = _s_instruction (mkInstruction op (Some 0))
  /\ _s_instruction (mkInstruction op None)
     = Some (String "i" (String (chr 0) (String (chr 0) (String (chr 0)
              (String (chr op) EmptyString))))).
Proof.
  intros H. split; [reflexivity|].
  exact (s_instruction_bytes (mkInstruction op None) H).
Qed.

Lemma s_instruction_no_arg_witness :
  0 <= OP_RETURN < 256
  /\ _s_instruction (mkInstruction OP_RETURN None)
     = _s_instruction (mkInstruction OP_RETURN (Some 0))
  /\ _s_instruction (mkInstruction OP_RETURN None)
     = Some (String "i" (String (chr 0) (String (chr 0) (String (chr 0)
              (String (chr OP_RETURN) EmptyString))))).
Proof.
  split.
  - unfold OP_RETURN. lia.
  - apply (s_instruction_no_arg OP_RETURN). unfold OP_RETURN. lia.
Defined.

(** C5.  The magic constant has the format version (1) in its high 16 bits
    and 0x0B0B in its low 16 bits, and the serialized bytecode is the four
    bytes of that word, little-endian, followed by the encoding of the
    top-level code object (and fails only when that encoding does). *)
Theorem serialize_bytecode_magic :
  Z.shiftr MAGIC_CONST 16 = 1
  /\ Z.land MAGIC_CONST 0xFFFF = 0x0B0B
  /\ forall c : CodeObject,
       serialize_bytecode c =
       (e <- _s_codeobject _s_object c ;;
        Some (String (chr 0x0B) (String (chr 0x0B) (String (chr 0x01)
               (String (chr 0x00) e))))).
Proof.
  split; [reflexivity|]. split; [reflexivity|].
  intros c. unfold serialize_bytecode.
  destruct (_s_codeobject _s_object c); reflexivity.
Qed.

(** C9.  A [Symbol] is serialized exactly as the plain string of its value,
    a STRING-tagged record with a 4-byte length prefix, although the two
    objects differ: the encoding does not tell them apart. *)
Theorem symbol_serialized_as_string (s : string) :
  _s_object (Symbol s) = _s_object (PyStr s)
  /\ Symbol s <> PyStr s
  /\ match _s_object (Symbol s) with
     | Some bs =>
         exists w, pack_word (len s) = Some w
                   /\ String.length w = 4%nat
                   /\ bs = TYPE_STRING ++ w ++ s
     | None => 2 ^ 32 <= len s
     end.
Proof.
  split; [reflexivity|]. split; [discriminate|].
  simpl. unfold _s_symbol, _s_string, _s_word.
  destruct (pack_word (len s)) as [w|] eqn:E; simpl.
  - exists w. split; [reflexivity|]. split; [|reflexivity].
    exact (pack_word_length _ _ E).
  - destruct (Z.ltb_spec (len s) (2 ^ 32)) as [L|L]; [|exact L].
    pose proof (len_nonneg s).
    rewrite pack_word_some in E by lia. discriminate.
Qed.

(** ** Further properties of the serializer *)

Lemma bind_some {A B : Type} (m : option A) (f : A -> option B) (b : B) :
  (x <- m ;; f x) = Some b -> exists a, m = Some a /\ f a = Some b.
Proof.
  destruct m as [a|]; [|discriminate].
  intros H. exists a. split; [reflexivity|exact H].
Qed.

Lemma join_decoded_form (l : list obj) :
  Forall (fun o => _s_object (decoded_form o) = _s_object o) l ->
  join _s_object (map decoded_form l) = join _s_object l.
Proof.
  induction 1 as [|o l Ho _ IH]; [reflexivity|].
  cbn [map join]. now rewrite Ho, IH.
Qed.

Lemma s_object_decoded_form (o : obj) :
  _s_object (decoded_form o) = _s_object o.
Proof.
  induction o using obj_nested_ind; try reflexivity.
  - cbn [decoded_form _s_object]. unfold _s_pair.
    now rewrite IHo1, IHo2.
  - cbn [decoded_form _s_object]. unfold _s_codeobject, _s_sequence.
    cbn [name args code constants varnames].
    now rewrite (join_decoded_form a H), (join_decoded_form cd H0),
      (join_decoded_form k H1), (join_decoded_form v H2).
  - cbn [decoded_form _s_object]. unfold _s_sequence.
    now rewrite (join_decoded_form l H).
Qed.

(** X1.  Two objects that fit the layout have the same encoding exactly
    when they have the same decoded form, that is when they differ at most
    by a [Symbol] in place of the string of its name or by an absent
    instruction argument in place of 0. *)
Theorem same_encoding_iff_same_decoded_form (o1 o2 : obj) :
  encodable o1 = true ->
  encodable o2 = true ->
  (_s_object o1 = _s_object o2 <-> decoded_form o1 = decoded_form o2).
Proof.
  intros E1 E2. split.
  - intros H.
    destruct (object_round_trip o1 E1) as (b1 & S1 & _ & _ & D1).
    destruct (object_round_trip o2 E2) as (b2 & S2 & _ & _ & D2).
    rewrite S1, S2 in H. injection H as <-.
    specialize (D1 (String.length b1) EmptyString (Nat.le_refl _)).
    specialize (D2 (String.length b1) EmptyString (Nat.le_refl _)).
    rewrite D1 in D2. now injection D2.
  - intros H. rewrite <- (s_object_decoded_form o1), H.
    apply s_object_decoded_form.
Qed.

Lemma same_encoding_iff_same_decoded_form_witness :
  encodable (Symbol "x") = true
  /\ encodable (PyStr "x") = true
  /\ (_s_object (Symbol "x") = _s_object (PyStr "x")
      <-> decoded_form (Symbol "x") = decoded_form (PyStr "x")).
Proof.
  split; [reflexivity|]. split; [reflexivity|].
  apply (same_encoding_iff_same_decoded_form (Symbol "x") (PyStr "x"));
    reflexivity.
Defined.

(** X2.  The encoding is self-delimiting: when the encodings of two objects
    that fit the layout, each followed by arbitrary bytes, give the same
    stream, the two encodings are the same bytes and so are the two
    remainders.  No encoding is a proper prefix of another. *)
Theorem encoding_is_prefix_free (o1 o2 : obj) (b1 b2 r1 r2 : string) :
  encodable o1 = true ->
  encodable o2 = true ->
  _s_object o1 = Some b1 ->
  _s_object o2 = Some b2 ->
  b1 ++ r1 = b2 ++ r2 ->
  b1 = b2 /\ r1 = r2.
Proof.
  intros E1 E2 S1 S2 H.
  destruct (object_round_trip o1 E1) as (x1 & T1 & _ & _ & D1).
  destruct (object_round_trip o2 E2) as (x2 & T2 & _ & _ & D2).
  rewrite S1 in T1. injection T1 as <-.
  rewrite S2 in T2. injection T2 as <-.
  specialize (D1 (String.length b1 + String.length b2)%nat r1 ltac:(lia)).
  specialize (D2 (String.length b1 + String.length b2)%nat r2 ltac:(lia)).
  rewrite H, D2 in D1. injection D1 as F R.
  split; [|now symmetry].
  assert (Q : _s_object o1 = _s_object o2).
  { rewrite <- (s_object_decoded_form o1), <- F.
    apply s_object_decoded_form. }
  rewrite S1, S2 in Q. now injection Q.
Qed.

Lemma encoding_is_prefix_free_witness :
  encodable (Symbol "x") = true
  /\ encodable (PyStr "x") = true
  /\ _s_object (Symbol "x")
     = Some (String "s" (String (chr 1) (String (chr 0) (String (chr 0)
               (String (chr 0) "x")))))
  /\ _s_object (PyStr "x")
     = Some (String "s" (String (chr 1) (String (chr 0) (String (chr 0)
               (String (chr 0) "x")))))
  /\ String "s" (String (chr 1) (String (chr 0) (String (chr 0)
        (String (chr 0) "x")))) ++ "0b"
     = String "s" (String (chr 1) (String (chr 0) (String (chr 0)
         (String (chr 0) "x")))) ++ "0b"
  /\ (String "s" (String (chr 1) (String (chr 0) (String (chr 0)
         (String (chr 0) "x"))))
      = String "s" (String (chr 1) (String (chr 0) (String (chr 0)
          (String (chr 0) "x"))))
      /\ "0b" = "0b").
Proof.
  split; [reflexivity|]. split; [reflexivity|].
  split; [reflexivity|]. split; [reflexivity|].
  split; [reflexivity|].
  apply (encoding_is_prefix_free (Symbol "x") (PyStr "x") _ _ "0b" "0b");
    reflexivity.
Defined.

Lemma len_cons (c : ascii) (s : string) : len (String c s) = 1 + len s.
Proof.
  unfold len. cbn [String.length]. lia.
Qed.

Lemma pack_word_len (v : Z) (w : string) : pack_word v = Some w -> len w = 4.
Proof.
  intros W. unfold len. now rewrite (pack_word_length _ _ W).
Qed.

Ltac some_eq H :=
  match type of H with
  | Some ?x = Some ?y =>
      let Q := fresh "Q" in
      assert (Q : x = y) by congruence; clear H; subst y
  end.

Lemma join_length (l : list obj) (payload : string) :
  Forall (fun o => forall bs, _s_object o = Some bs -> len bs = enc_len o) l ->
  join _s_object l = Some payload ->
  len payload = sum_map enc_len l.
Proof.
  intros H. revert payload.
  induction H as [|o l Ho _ IH]; intros payload J.
  - cbn [join] in J. some_eq J. reflexivity.
  - cbn [join] in J.
    apply bind_some in J as (x & Sx & J).
    apply bind_some in J as (xs & Sxs & J).
    some_eq J.
    rewrite len_append, (Ho _ Sx), (IH _ Sxs). reflexivity.
Qed.

Lemma string_length (s bs : string) :
  _s_string s = Some bs -> len bs = 5 + len s.
Proof.
  unfold _s_string, _s_word. intros H.
  apply bind_some in H as (w & W & H). some_eq H.
  rewrite !len_append, (pack_word_len _ _ W).
  change (len TYPE_STRING) with 1. lia.
Qed.

Lemma sequence_length (l : list obj) (bs : string) :
  Forall (fun o => forall bs, _s_object o = Some bs -> len bs = enc_len o) l ->
  _s_sequence _s_object l = Some bs ->
  len bs = 5 + sum_map enc_len l.
Proof.
  intros F H. unfold _s_sequence, _s_word in H.
  apply bind_some in H as (payload & J & H).
  apply bind_some in H as (w & W & H). some_eq H.
  rewrite !len_append, (join_length _ _ F J), (pack_word_len _ _ W).
  change (len TYPE_SEQUENCE) with 1. lia.
Qed.

(** X3.  Whenever an object is encoded, its encoding has [enc_len] bytes:
    one for [None], two for a boolean, five for a number or an instruction,
    five more than its length for a string or a symbol, and for a sequence
    five more than the encodings of its elements together (the word after
    the tag counts bytes, not elements). *)
Theorem encoding_length (o : obj) (bs : string) :
  _s_object o = Some bs -> len bs = enc_len o.
Proof.
  revert bs. induction o using obj_nested_ind; intros bs S;
    cbn [_s_object enc_len] in S |- *.
  - unfold _s_null in S. some_eq S. reflexivity.
  - unfold _s_boolean in S. some_eq S. destruct b; reflexivity.
  - unfold _s_number, _s_word in S.
    apply bind_some in S as (w & W & S). some_eq S.
    rewrite len_append, (pack_word_len _ _ W). reflexivity.
  - exact (string_length _ _ S).
  - unfold _s_pair in S.
    apply bind_some in S as (x & Sx & S).
    apply bind_some in S as (y & Sy & S). some_eq S.
    rewrite !len_append, (IHo1 _ Sx), (IHo2 _ Sy).
    change (len TYPE_PAIR) with 1. lia.
  - unfold _s_instruction, _s_word in S.
    apply bind_some in S as (w & W & S). some_eq S.
    rewrite len_append, (pack_word_len _ _ W). reflexivity.
  - unfold _s_codeobject in S.
    cbn [name args code constants varnames] in S.
    apply bind_some in S as (xn & Sn & S).
    destruct n as [n|]; [cbn [bind] in Sn|discriminate].
    apply bind_some in S as (xa & Sa & S).
    apply bind_some in S as (xk & Sk & S).
    apply bind_some in S as (xv & Sv & S).
    apply bind_some in S as (xc & Sc & S). some_eq S.
    rewrite !len_append, (string_length _ _ Sn),
      (sequence_length _ _ H Sa), (sequence_length _ _ H1 Sk),
      (sequence_length _ _ H2 Sv), (sequence_length _ _ H0 Sc).
    change (len TYPE_CODEOBJECT) with 1. lia.
  - exact (sequence_length _ _ H S).
  - exact (string_length _ _ S).
Qed.

Lemma encoding_length_witness :
  _s_object (PyList [Number 1; PyNone; Boolean true])
  = Some (TYPE_SEQUENCE
          ++ String (chr 8) (String (chr 0) (String (chr 0)
               (String (chr 0) EmptyString)))
          ++ TYPE_NUMBER
          ++ String (chr 1) (String (chr 0) (String (chr 0)
               (String (chr 0) EmptyString)))
          ++ TYPE_NULL ++ TYPE_BOOLEAN ++ String (chr 1) EmptyString)
  /\ len (TYPE_SEQUENCE
          ++ String (chr 8) (String (chr 0) (String (chr 0)
               (String (chr 0) EmptyString)))
          ++ TYPE_NUMBER
          ++ String (chr 1) (String (chr 0) (String (chr 0)
               (String (chr 0) EmptyString)))
          ++ TYPE_NULL ++ TYPE_BOOLEAN ++ String (chr 1) EmptyString)
     = enc_len (PyList [Number 1; PyNone; Boolean true]).
Proof.
  assert (H : _s_object (PyList [Number 1; PyNone; Boolean true])
              = Some (TYPE_SEQUENCE
                      ++ String (chr 8) (String (chr 0) (String (chr 0)
                           (String (chr 0) EmptyString)))
                      ++ TYPE_NUMBER
                      ++ String (chr 1) (String (chr 0) (String (chr 0)
                           (String (chr 0) EmptyString)))
                      ++ TYPE_NULL ++ TYPE_BOOLEAN
                      ++ String (chr 1) EmptyString)) by reflexivity.
  split; [exact H|].
  exact (encoding_length _ _ H).
Defined.

Lemma pack_word_injective (w1 w2 : Z) (p : string) :
  pack_word w1 = Some p -> pack_word w2 = Some p -> w1 = w2.
Proof.
  intros P1 P2.
  pose proof (unpack_pack _ _ EmptyString P1) as U1.
  pose proof (unpack_pack _ _ EmptyString P2) as U2.
  rewrite U1 in U2. now injection U2.
Qed.

(** X4.  Two instructions whose opcodes are bytes have the same encoding
    exactly when their opcodes are equal and their arguments (an absent one
    counting as 0) are congruent modulo 2^24: the opcode is never lost, and
    of the argument exactly the low 24 bits are kept. *)
Theorem instruction_encodings_equal_iff (i1 i2 : Instruction) :
  0 <= opcode i1 < 256 ->
  0 <= opcode i2 < 256 ->
  (_s_instruction i1 = _s_instruction i2 <->
   opcode i1 = opcode i2
   /\ arg_or_0 (arg i1) mod 2 ^ 24 = arg_or_0 (arg i2) mod 2 ^ 24).
Proof.
  intros R1 R2. split.
  - intros H. unfold _s_instruction, _s_word in H.
    pose proof (pack_word_some _ (instr_word_range i1 R1)) as P1.
    pose proof (pack_word_some _ (instr_word_range i2 R2)) as P2.
    set (w1 := String (chr (instr_word i1)) _) in P1.
    set (w2 := String (chr (instr_word i2)) _) in P2.
    rewrite P1, P2 in H. cbn [bind] in H.
    clearbody w1 w2.
    assert (Q : w1 = w2) by (unfold TYPE_INSTR in H; cbn [append] in H; congruence).
    rewrite <- Q in P2.
    pose proof (pack_word_injective _ _ _ P1 P2) as W.
    split.
    + rewrite <- (instr_word_high i1), <- (instr_word_high i2) by lia.
      now rewrite W.
    + rewrite <- (instr_word_low i1), <- (instr_word_low i2).
      now rewrite W.
  - intros [Ho Ha].
    rewrite (s_instruction_bytes i1 R1), (s_instruction_bytes i2 R2).
    now rewrite Ho, Ha.
Qed.

Lemma instruction_encodings_equal_iff_witness :
  0 <= opcode (mkInstruction OP_CALL (Some (-1))) < 256
  /\ 0 <= opcode (mkInstruction OP_CALL (Some (2 ^ 24 - 1))) < 256
  /\ (_s_instruction (mkInstruction OP_CALL (Some (-1)))
      = _s_instruction (mkInstruction OP_CALL (Some (2 ^ 24 - 1)))
      <-> opcode (mkInstruction OP_CALL (Some (-1)))
          = opcode (mkInstruction OP_CALL (Some (2 ^ 24 - 1)))
          /\ arg_or_0 (arg (mkInstruction OP_CALL (Some (-1)))) mod 2 ^ 24
             = arg_or_0 (arg (mkInstruction OP_CALL (Some (2 ^ 24 - 1))))
               mod 2 ^ 24).
Proof.
  assert (R : 0 <= OP_CALL < 256) by (unfold OP_CALL; lia).
  split; [exact R|]. split; [exact R|].
  apply (instruction_encodings_equal_iff
           (mkInstruction OP_CALL (Some (-1)))
           (mkInstruction OP_CALL (Some (2 ^ 24 - 1)))); exact R.
Defined.

(** X5.  [opcode2str] returns a name exactly for the ten opcodes, raising
    (KeyError) for every other number, and no two opcodes share a name. *)
Theorem opcode2str_total_and_injective (a b : Z) :
  (opcode2str a = None <-> ~ In a opcodes)
  /\ (opcode2str a = opcode2str b ->
      opcode2str a = None \/ a = b).
Proof.
  unfold opcode2str, opcodes, OP_CONST, OP_LOADVAR, OP_STOREVAR, OP_DEFVAR,
    OP_FUNCTION, OP_POP, OP_JUMP, OP_FJUMP, OP_RETURN, OP_CALL.
  split.
  - repeat match goal with
           | |- context [(a =? ?k)%Z] =>
               destruct (Z.eqb_spec a k);
               [subst a; split; [discriminate|intros N; exfalso; apply N;
                                 cbn [In]; tauto]|]
           end.
    split; [|reflexivity]. intros _ N. cbn [In] in N.
    repeat destruct N as [N|N]; congruence.
  - repeat match goal with
           | |- context [(a =? ?k)%Z] =>
               destruct (Z.eqb_spec a k);
               [subst a;
                repeat match goal with
                       | |- context [(b =? ?j)%Z] =>
                           destruct (Z.eqb_spec b j);
                           [subst b; intros H;
                            first [right; reflexivity|discriminate H]|]
                       end; discriminate|]
           end.
    intros _. now left.
Qed.

End BytecodeFacts.

(* ================================================================== *)
(** * Properties of the compiler *)
(* ================================================================== *)

Section CompilerFacts.
Import Bytecode.
Import Byteplay.
Import Compiler.
Local Open Scope comp_scope.
Context {E : ExprModule}.

(** ** Sequences *)

Lemma bind_run {A B : Type} (m : M A) (f : A -> M B) (w : world) :
  (x <- m ;; f x) w =
  match m w with
  | Ok (a, w') => f a w'
  | Raise e => Raise e
  | OutOfFuel => OutOfFuel
  end.
Proof.
  reflexivity.
Qed.

Lemma mapM_post {A B C : Type} (f : A -> M B) (g : B -> C) (l : list A)
  (w : world) :
  mapM (fun x => y <- f x ;; ret (g y)) l w =
  match mapM f l w with
  | Ok (ys, w') => Ok (map g ys, w')
  | Raise e => Raise e
  | OutOfFuel => OutOfFuel
  end.
Proof.
  revert w. induction l as [|x l IH]; intros w; [reflexivity|].
  cbn [mapM]. unfold bind, ret in IH |- *.
  destruct (f x w) as [[y w1]|e|]; try reflexivity.
  rewrite IH.
  destruct (mapM f l w1) as [[ys w2]|e|]; reflexivity.
Qed.

Lemma removelast_pops (cs : list (list item)) :
  removelast (List.concat (map (fun c => c ++ [Ins POP_TOP ANone])%list cs))
  = with_pops cs.
Proof.
  induction cs as [|c cs IH]; [reflexivity|].
  cbn [map List.concat].
  destruct cs as [|c' cs].
  - cbn [map List.concat with_pops]. rewrite app_nil_r.
    apply removelast_last.
  - rewrite removelast_app
      by (cbn [map List.concat]; destruct c'; discriminate).
    rewrite IH, <- app_assoc. reflexivity.
Qed.

Lemma comp_exprlist_with_pops (comp : obj -> M (list item))
  (exprlist : list obj) (w : world) :
  _comp_exprlist comp exprlist w =
  match mapM comp exprlist w with
  | Ok (cs, w') => Ok (with_pops cs, w')
  | Raise e => Raise e
  | OutOfFuel => OutOfFuel
  end.
Proof.
  unfold _comp_exprlist, _instr_seq. rewrite bind_run.
  rewrite (mapM_post comp
             (fun c => List.concat [c; _instr POP_TOP ANone]) exprlist w).
  destruct (mapM comp exprlist w) as [[cs w']|e|]; try reflexivity.
  unfold ret. do 2 f_equal.
  assert (M1 : map (fun c => List.concat [c; _instr POP_TOP ANone]) cs
               = map (fun c => c ++ [Ins POP_TOP ANone])%list cs).
  { apply map_ext. intros c. cbn [List.concat]. unfold _instr.
    now rewrite app_nil_r. }
  rewrite M1, removelast_pops.
  destruct cs as [|c cs]; [reflexivity|].
  destruct (Z.ltb_spec 0 (Z.of_nat (List.length
              (List.concat (map (fun c0 => c0 ++ [Ins POP_TOP ANone])
                              (c :: cs))%list)))) as [L|L];
    [reflexivity|].
  exfalso. cbn [map List.concat] in L. rewrite !length_app in L.
  cbn [List.length] in L. lia.
Qed.

Lemma mapM_cons_ok {A B : Type} (f : A -> M B) (x : A) (l : list A)
  (w w' : world) (ys : list B) :
  mapM f (x :: l) w = Ok (ys, w') ->
  exists y w1 ys',
    f x w = Ok (y, w1) /\ mapM f l w1 = Ok (ys', w') /\ ys = y :: ys'.
Proof.
  cbn [mapM]. unfold bind, ret.
  destruct (f x w) as [[y w1]|e|]; try discriminate.
  destruct (mapM f l w1) as [[ys' w2]|e|] eqn:Q; try discriminate.
  intros H. injection H as <- <-. now exists y, w1, ys'.
Qed.

(** The code of a sequence that starts with two expressions: the code of
    the first, a POP_TOP, and the rest. *)
Lemma comp_exprlist_two (comp : obj -> M (list item)) (e1 e2 : obj)
  (rest : list obj) (w w' : world) (c : list item) :
  _comp_exprlist comp (e1 :: e2 :: rest) w = Ok (c, w') ->
  exists c1 w1 tail,
    comp e1 w = Ok (c1, w1)
    /\ c = (c1 ++ Ins POP_TOP ANone :: tail)%list.
Proof.
  rewrite comp_exprlist_with_pops.
  destruct (mapM comp (e1 :: e2 :: rest) w) as [[cs w2]|e|] eqn:Q;
    try discriminate.
  intros H. injection H as <- <-.
  apply mapM_cons_ok in Q as (c1 & w1 & cs1 & C1 & Q & ->).
  apply mapM_cons_ok in Q as (c2 & w3 & cs2 & _ & _ & ->).
  exists c1, w1, (with_pops (c2 :: cs2)). now split.
Qed.

(** The assignment branch of [_comp]: when it returns, the code is the code
    of the value followed by the store, and nothing after it. *)
Lemma comp_assignment_inv (fuel : nat) (e : obj) (w w' : world)
  (c : list item) :
  is_self_evaluating e = false ->
  is_variable e = false ->
  is_quoted e = false ->
  is_assignment e = true ->
  _comp fuel e w = Ok (c, w') ->
  exists fuel' value cv n,
    fuel = S fuel'
    /\ assignment_value e = Some value
    /\ _comp fuel' value w = Ok (cv, w')
    /\ c = (cv ++ [Ins STORE_FAST n])%list.
Proof.
  intros H1 H2 H3 H4. destruct fuel as [|fuel]; [discriminate|].
  cbn [_comp]. rewrite H1, H2, H3, H4.
  destruct (assignment_value e) as [value|]; [|discriminate].
  cbn [lift]. unfold bind at 1. unfold ret at 1. unfold bind at 1.
  destruct (_comp fuel value w) as [[cv w1]|x|] eqn:C; try discriminate.
  destruct (assignment_variable e) as [var|]; [|discriminate].
  cbn [lift]. unfold bind at 1. unfold ret at 1. unfold bind at 1.
  destruct (value_encode var w1) as [[n w2]|x|] eqn:V; try discriminate.
  unfold ret. intros H. injection H as <- <-.
  assert (w2 = w1) as ->.
  { destruct var; cbn [value_encode] in V; try discriminate.
    destruct (all_ascii value0); [|discriminate].
    unfold ret in V. now injection V. }
  exists fuel, value, cv, n. repeat split; assumption.
Qed.

(** C6.  The sequence code pops after the store of an assignment.  For a
    top-level sequence ([compile]) and for the body of a [begin]
    ([_comp_begin]) whose first expression is an assignment followed by at
    least one more expression, the code, when the compiler returns any, is
    the code of the assigned value, the STORE_FAST of the assignment, and
    directly after it the POP_TOP of the sequence: the store has taken the
    value that the POP_TOP is there to remove, since the assignment branch
    of [_comp] pushes nothing after the store, unlike [_comp_definition],
    which loads [None] "so the expression has a value". *)
Theorem sequence_pops_after_assignment_store (fuel : nat) (e e2 : obj)
  (rest : list obj) :
  is_self_evaluating e = false ->
  is_variable e = false ->
  is_quoted e = false ->
  is_assignment e = true ->
  (forall w w' k,
     compile fuel (e :: e2 :: rest) w = Ok (k, w') ->
     exists fuel' value w0 w1 cv n tail,
       assignment_value e = Some value
       /\ _comp fuel' value w0 = Ok (cv, w1)
       /\ Byteplay.code k
          = (cv ++ Ins STORE_FAST n :: Ins POP_TOP ANone :: tail)%list)
  /\ (forall exprs w w' c,
        expand_nested_pairs exprs (Some false) = Some (e :: e2 :: rest) ->
        _comp_begin (_comp fuel) exprs w = Ok (c, w') ->
        exists fuel' value w0 w1 cv n tail,
          assignment_value e = Some value
          /\ _comp fuel' value w0 = Ok (cv, w1)
          /\ c = (cv ++ Ins STORE_FAST n :: Ins POP_TOP ANone :: tail)%list).
Proof.
  intros H1 H2 H3 H4. split.
  - intros w w' k H. unfold compile in H. rewrite bind_run in H.
    cbn [set_frame] in H. rewrite bind_run in H.
    set (w0 := mkWorld (labelstate w) (Some (GlobalFrame [])) (next_label w))
      in H.
    destruct (_comp_exprlist (_comp fuel) (e :: e2 :: rest) w0)
      as [[c w2]|x|] eqn:Q; try discriminate.
    unfold ret in H. injection H as <- <-.
    apply comp_exprlist_two in Q as (c1 & w1 & tail & C1 & ->).
    apply (comp_assignment_inv _ _ _ _ _ H1 H2 H3 H4) in C1
      as (fuel' & value & cv & n & _ & V & C & ->).
    exists fuel', value, w0, w1, cv, n,
      (tail ++ [Ins RETURN_VALUE ANone])%list.
    split; [exact V|]. split; [exact C|].
    cbn [Byteplay.code]. unfold _instr_seq, _instr. cbn [List.concat].
    rewrite <- !app_assoc. reflexivity.
  - intros exprs w w' c X H. unfold _comp_begin in H.
    rewrite bind_run, X in H. cbn [lift] in H. unfold ret at 1 in H.
    apply comp_exprlist_two in H as (c1 & w1 & tail & C1 & ->).
    apply (comp_assignment_inv _ _ _ _ _ H1 H2 H3 H4) in C1
      as (fuel' & value & cv & n & _ & V & C & ->).
    exists fuel', value, w, w1, cv, n, tail.
    split; [exact V|]. split; [exact C|].
    rewrite <- !app_assoc. reflexivity.
Qed.

(** ** Compilation and the state it starts from *)

Section Rebase.
Variable ls : Z.
Variable k : nat.

(** Two runs of a computation, the second in the rebased world: they end
    alike, with results related by [R] and final worlds rebased alike. *)
Definition related {A : Type} (R : A -> A -> Prop) (m1 m2 : M A) : Prop :=
  forall w,
    match m1 w with
    | Ok (a1, w1) =>
        exists a2, m2 (rebase ls k w) = Ok (a2, rebase ls k w1) /\ R a1 a2
    | Raise e => m2 (rebase ls k w) = Raise e
    | OutOfFuel => m2 (rebase ls k w) = OutOfFuel
    end.

Definition shift_label (l : Label) : Label := (l + k)%nat.

Definition shifted (c1 c2 : list item) : Prop :=
  c2 = map (relabel_item shift_label) c1.

Definition shifted_label (l1 l2 : Label) : Prop := l2 = shift_label l1.

Lemma related_ret {A : Type} (R : A -> A -> Prop) (a1 a2 : A) :
  R a1 a2 -> related R (ret a1) (ret a2).
Proof.
  intros H w. exists a2. split; [reflexivity|exact H].
Qed.

Lemma related_raise {A : Type} (R : A -> A -> Prop) (e : exn) :
  related R (raise e) (raise e).
Proof.
  intros w. reflexivity.
Qed.

Lemma related_fuel {A : Type} (R : A -> A -> Prop) :
  related R out_of_fuel out_of_fuel.
Proof.
  intros w. reflexivity.
Qed.

Lemma related_lift {A : Type} (o : option A) : related eq (lift o) (lift o).
Proof.
  destruct o as [a|]; [apply related_ret; reflexivity|apply related_raise].
Qed.

Lemma related_bind {A B : Type} (RA : A -> A -> Prop) (RB : B -> B -> Prop)
  (m1 m2 : M A) (f1 f2 : A -> M B) :
  related RA m1 m2 ->
  (forall a1 a2, RA a1 a2 -> related RB (f1 a1) (f2 a2)) ->
  related RB (x <- m1 ;; f1 x) (x <- m2 ;; f2 x).
Proof.
  intros Hm Hf w. rewrite !bind_run.
  specialize (Hm w).
  destruct (m1 w) as [[a1 w1]|e|].
  - destruct Hm as (a2 & -> & Ha).
    exact (Hf a1 a2 Ha w1).
  - now rewrite Hm.
  - now rewrite Hm.
Qed.

Lemma related_new_label : related shifted_label new_label new_label.
Proof.
  intros w. exists (shift_label (next_label w)). split; reflexivity.
Qed.

Lemma related_set_frame (f : option Frame) :
  related eq (set_frame f) (set_frame f).
Proof.
  intros w. exists tt. split; reflexivity.
Qed.

Lemma related_get_frame : related eq get_frame get_frame.
Proof.
  intros w. unfold get_frame. cbn [rebase frame].
  destruct (frame w) as [f|]; [|reflexivity].
  exists f. split; reflexivity.
Qed.

Definition shifted_arg (a1 a2 : pyarg) : Prop :=
  a2 = relabel_arg shift_label a1.

Lemma related_attr_value (e : obj) :
  related shifted_arg (attr_value e) (attr_value e).
Proof.
  destruct e; first [apply related_ret; reflexivity|apply related_raise].
Qed.

Lemma related_value_encode (e : obj) :
  related shifted_arg (value_encode e) (value_encode e).
Proof.
  destruct e; try apply related_raise.
  cbn [value_encode]. destruct (all_ascii value);
    [apply related_ret; reflexivity|apply related_raise].
Qed.

Lemma related_symbol_names (l : list obj) :
  related eq (symbol_names l) (symbol_names l).
Proof.
  induction l as [|x l IH]; [apply related_ret; reflexivity|].
  destruct x; try apply related_raise.
  cbn [symbol_names].
  eapply related_bind; [exact IH|].
  intros a1 a2 <-. apply related_ret. reflexivity.
Qed.

Lemma related_mapM {A B : Type} (R : B -> B -> Prop) (f : A -> M B)
  (l : list A) :
  (forall x, related R (f x) (f x)) ->
  related (Forall2 R) (mapM f l) (mapM f l).
Proof.
  intros Hf. induction l as [|x l IH].
  - apply related_ret. constructor.
  - cbn [mapM].
    eapply related_bind; [apply Hf|].
    intros y1 y2 Hy.
    eapply related_bind; [exact IH|].
    intros ys1 ys2 Hys. apply related_ret. now constructor.
Qed.

Lemma related_local_frame {A : Type} (R : A -> A -> Prop) (b1 b2 : M A) :
  related R b1 b2 -> related R (_local_frame b1) (_local_frame b2).
Proof.
  intros Hb. unfold _local_frame.
  eapply related_bind; [apply related_get_frame|].
  intros p1 p2 <-.
  eapply related_bind; [apply related_set_frame|].
  intros _ _ _.
  eapply related_bind; [exact Hb|].
  intros a1 a2 Ha.
  eapply related_bind; [apply related_set_frame|].
  intros _ _ _. apply related_ret. exact Ha.
Qed.

Lemma shifted_concat (cs1 cs2 : list (list item)) :
  Forall2 shifted cs1 cs2 -> shifted (List.concat cs1) (List.concat cs2).
Proof.
  unfold shifted.
  induction 1 as [|c1 c2 cs1 cs2 Hc _ IH]; [reflexivity|].
  cbn [List.concat]. rewrite map_app, Hc, IH. reflexivity.
Qed.

Lemma map_removelast {A B : Type} (f : A -> B) (l : list A) :
  map f (removelast l) = removelast (map f l).
Proof.
  induction l as [|x l IH]; [reflexivity|].
  destruct l as [|y l]; [reflexivity|].
  cbn [removelast map] in IH |- *. now rewrite IH.
Qed.

Ltac rel_hyp H :=
  unfold shifted, shifted_label, shifted_arg in H;
  match type of H with
  | ?x = ?y => first [subst y | subst x | idtac]
  | _ => idtac
  end.

Ltac rel_leaf :=
  apply related_ret;
  unfold shifted, shifted_label, shifted_arg, _instr_seq, _instr, ANone, AStr
    in *;
  subst;
  cbn [List.concat map relabel_item relabel_arg];
  rewrite ?map_app, ?app_nil_r;
  cbn [List.concat map relabel_item relabel_arg];
  try reflexivity.

Ltac rel_basic :=
  first
    [ apply related_lift
    | apply related_raise
    | apply related_fuel
    | apply related_new_label
    | apply related_set_frame
    | apply related_get_frame
    | apply related_attr_value
    | apply related_value_encode
    | apply related_symbol_names
    | match goal with
      | H : forall e, related shifted (?comp e) (?comp e)
        |- related _ (?comp _) (?comp _) => apply H
      end ].

(** Runs along a chain of binds for as long as the computation at its head
    is one of the basic ones. *)
Ltac rel :=
  try first
    [ rel_basic
    | eapply related_bind;
      [ solve [rel_basic]
      | let H := fresh "R" in intros ? ? H; rel_hyp H; rel ] ].

Section WithComp.
Variable comp : obj -> M (list item).
Hypothesis related_comp : forall e, related shifted (comp e) (comp e).

Lemma related_comp_exprlist (l : list obj) :
  related shifted (_comp_exprlist comp l) (_comp_exprlist comp l).
Proof.
  unfold _comp_exprlist.
  eapply related_bind.
  { apply related_mapM with (R := shifted). intros x. rel. rel_leaf. }
  intros ps1 ps2 Hp. apply related_ret.
  apply shifted_concat in Hp. unfold shifted, _instr_seq in *.
  rewrite Hp, length_map.
  destruct (0 <? Z.of_nat (List.length (List.concat ps1))); [|reflexivity].
  symmetry. apply map_removelast.
Qed.

Lemma related_comp_begin (e : obj) :
  related shifted (_comp_begin comp e) (_comp_begin comp e).
Proof.
  unfold _comp_begin.
  eapply related_bind; [apply related_lift|].
  intros l1 l2 <-. apply related_comp_exprlist.
Qed.

Lemma related_comp_lambda (e : obj) :
  related shifted (_comp_lambda comp e) (_comp_lambda comp e).
Proof.
  unfold _comp_lambda. rel.
  eapply related_bind.
  - apply related_local_frame with (R := shifted). rel.
    eapply related_bind; [apply related_comp_begin|].
    intros b1 b2 Hb. rel_leaf.
  - intros o1 o2 Ho. rel_leaf.
Qed.

Lemma related_comp_definition (e : obj) :
  related shifted (_comp_definition comp e) (_comp_definition comp e).
Proof.
  unfold _comp_definition. rel. rel_leaf.
Qed.

Lemma related_comp_if (e : obj) :
  related shifted (_comp_if comp e) (_comp_if comp e).
Proof.
  unfold _comp_if. rel. rel_leaf.
Qed.

Lemma related_comp_application (e : obj) :
  related shifted (_comp_application comp e) (_comp_application comp e).
Proof.
  unfold _comp_application. rel.
  eapply related_bind.
  - apply related_mapM with (R := shifted). exact related_comp.
  - intros cs1 cs2 Hcs. apply shifted_concat in Hcs.
    rel. apply related_ret.
    unfold shifted, _instr_seq, _instr in *. subst.
    cbn [List.concat]. rewrite Hcs, !map_app, !app_nil_r. reflexivity.
Qed.

End WithComp.

Lemma related_comp_fuel (fuel : nat) (e : obj) :
  related shifted (_comp fuel e) (_comp fuel e).
Proof.
  revert e. induction fuel as [|fuel IH]; intros e;
    [apply related_fuel|].
  cbn [_comp].
  destruct (is_self_evaluating e); [rel; rel_leaf|].
  destruct (is_variable e); [rel; rel_leaf|].
  destruct (is_quoted e); [rel|].
  destruct (is_assignment e); [rel; rel_leaf|].
  destruct (is_definition e); [now apply related_comp_definition|].
  destruct (is_if e); [now apply related_comp_if|].
  destruct (is_cond e); [rel|].
  destruct (is_let e); [rel|].
  destruct (is_lambda e); [now apply related_comp_lambda|].
  destruct (is_begin e).
  { eapply related_bind; [apply related_lift|].
    intros a1 a2 <-. now apply related_comp_begin. }
  destruct (is_application e); [now apply related_comp_application|].
  apply related_raise.
Qed.

Lemma related_compile (fuel : nat) (exprlist : list obj) :
  related (fun c1 c2 => c2 = relabel shift_label c1)
    (compile fuel exprlist) (compile fuel exprlist).
Proof.
  unfold compile.
  eapply related_bind; [apply related_set_frame|].
  intros _ _ _.
  eapply related_bind;
    [apply related_comp_exprlist; apply related_comp_fuel|].
  intros c1 c2 Hc. apply related_ret.
  unfold shifted, _instr_seq, _instr in *. subst c2.
  cbn [relabel List.concat]. rewrite !map_app. reflexivity.
Qed.

End Rebase.

(** ** Renaming labels back *)

Fixpoint relabel_item_cancel (n : nat) (i : item) {struct i} :
  relabel_item (fun l => (l - n)%nat) (relabel_item (shift_label n) i) = i
with relabel_arg_cancel (n : nat) (a : pyarg) {struct a} :
  relabel_arg (fun l => (l - n)%nat) (relabel_arg (shift_label n) a) = a.
Proof.
  - destruct i as [op a|l]; cbn [relabel_item].
    + now rewrite relabel_arg_cancel.
    + unfold shift_label. now rewrite Nat.add_sub.
  - destruct a as [z|b|o|l|c]; cbn [relabel_arg]; try reflexivity.
    + unfold shift_label. now rewrite Nat.add_sub.
    + destruct c as [cd fv ar va vk nl nm fn ln ds]. cbn [relabel_arg].
      do 2 f_equal.
      induction cd as [|x cd IH]; [reflexivity|].
      cbn [map]. now rewrite relabel_item_cancel, IH.
Qed.

Lemma relabel_cancel (n : nat) (c : Code) :
  relabel (fun l => (l - n)%nat) (relabel (shift_label n) c) = c.
Proof.
  destruct c as [cd fv ar va vk nl nm fn ln ds]. cbn [relabel].
  f_equal.
  induction cd as [|x cd IH]; [reflexivity|].
  cbn [map]. now rewrite relabel_item_cancel, IH.
Qed.

Lemma compile_from_base (fuel : nat) (exprlist : list obj) (w : world) :
  outcome (next_label w) (compile fuel exprlist w)
  = code_of (compile fuel exprlist (mkWorld 0 None 0)).
Proof.
  assert (F : compile fuel exprlist w
              = compile fuel exprlist
                  (rebase (labelstate w) (next_label w) (mkWorld 0 None 0))).
  { destruct w as [l f n]. reflexivity. }
  rewrite F.
  pose proof (related_compile (labelstate w) (next_label w) fuel exprlist
                (mkWorld 0 None 0)) as H.
  destruct (compile fuel exprlist (mkWorld 0 None 0)) as [[c wb]|e|].
  - destruct H as (c2 & -> & ->). cbn [outcome code_of].
    now rewrite relabel_cancel.
  - now rewrite H.
  - now rewrite H.
Qed.

(** C7.  Compilation is deterministic.  [BobCompiler.compile], run on the
    same expressions from any two states of the compiler (whatever its
    [frame] and [labelstate] attributes, however many [Label] objects were
    allocated before), ends the same way, with the same exception or with
    the same code object: the same instructions, arguments, nested code
    objects and names in the same order, the jump labels being numbered
    from the first one each run allocates.  So does [compile_code] on the
    same source text. *)
Theorem compile_deterministic (fuel : nat) :
  (forall (exprlist : list obj) (w1 w2 : world),
     outcome (next_label w1) (compile fuel exprlist w1)
     = outcome (next_label w2) (compile fuel exprlist w2))
  /\ (forall (P : ParserModule) (code_str : string) (n1 n2 : nat),
       outcome n1 (compile_code fuel code_str n1)
       = outcome n2 (compile_code fuel code_str n2)).
Proof.
  split.
  - intros exprlist w1 w2. now rewrite !compile_from_base.
  - intros P code_str n1 n2. unfold compile_code.
    destruct (parse code_str) as [parsed|]; [|reflexivity].
    exact (eq_trans (compile_from_base fuel parsed (new_compiler n1))
             (eq_sym (compile_from_base fuel parsed (new_compiler n2)))).
Qed.

End CompilerFacts.

(** The code of [(if 0 1 2)], compiled when three labels exist: its two
    labels are the fourth and the fifth, numbered 0 and 1 in the outcome. *)
Example compile_if_after_three_labels :
  Compiler.code_of
    (Compiler.compile (E := ExprExample.tagged_lists) 10
       ExprExample.if_0_1_2 (Compiler.mkWorld 7 None 3))
  = Compiler.Ok
      (Byteplay.mkCode
         [Byteplay.Ins Byteplay.LOAD_CONST (Byteplay.AInt 0);
          Byteplay.Ins Byteplay.POP_JUMP_IF_FALSE (Byteplay.ALabel 3%nat);
          Byteplay.Ins Byteplay.LOAD_CONST (Byteplay.AInt 1);
          Byteplay.Ins Byteplay.JUMP_ABSOLUTE (Byteplay.ALabel 4%nat);
          Byteplay.Lbl 3%nat;
          Byteplay.Ins Byteplay.LOAD_CONST (Byteplay.AInt 2);
          Byteplay.Lbl 4%nat;
          Byteplay.Ins Byteplay.RETURN_VALUE Byteplay.ANone]
         [] [] false false false "__main__" "<scheme>>" 0 None)
  /\ Compiler.outcome 3
       (Compiler.compile (E := ExprExample.tagged_lists) 10
          ExprExample.if_0_1_2 (Compiler.mkWorld 7 None 3))
     = Compiler.code_of
         (Compiler.compile (E := ExprExample.tagged_lists) 10
            ExprExample.if_0_1_2 (Compiler.new_compiler 0)).
Proof.
  split; vm_compute; reflexivity.
Qed.

(** The code of [(define x 5) x]: the definition leaves [None], which the
    sequence pops before the variable is loaded. *)
Example compile_define_then_load :
  Compiler.code_of
    (Compiler.compile (E := ExprExample.tagged_lists) 10
       ExprExample.define_x_5_x (Compiler.new_compiler 0))
  = Compiler.Ok
      (Byteplay.mkCode
         [Byteplay.Ins Byteplay.LOAD_CONST (Byteplay.AInt 5);
          Byteplay.Ins Byteplay.STORE_FAST (Byteplay.AStr "x");
          Byteplay.Ins Byteplay.LOAD_CONST Byteplay.ANone;
          Byteplay.Ins Byteplay.POP_TOP Byteplay.ANone;
          Byteplay.Ins Byteplay.LOAD_NAME (Byteplay.AStr "x");
          Byteplay.Ins Byteplay.RETURN_VALUE Byteplay.ANone]
         [] [] false false false "__main__" "<scheme>>" 0 None).
Proof.
  vm_compute. reflexivity.
Qed.

Lemma sequence_pops_after_assignment_store_witness :
  Compiler.is_self_evaluating (ExprModule := ExprExample.tagged_lists)
    ExprExample.set_y_1_expr = false
  /\ Compiler.is_variable (ExprModule := ExprExample.tagged_lists)
       ExprExample.set_y_1_expr = false
  /\ Compiler.is_quoted (ExprModule := ExprExample.tagged_lists)
       ExprExample.set_y_1_expr = false
  /\ Compiler.is_assignment (ExprModule := ExprExample.tagged_lists)
       ExprExample.set_y_1_expr = true
  /\ Compiler.compile (E := ExprExample.tagged_lists) 10
       [ExprExample.set_y_1_expr; Bytecode.Number 2]
       (Compiler.new_compiler 0)
     = Compiler.Ok (ExprExample.set_y_1_then_2_code,
                    ExprExample.compiled_world 0)
  /\ exists fuel' value w0 w1 cv n tail,
       Compiler.assignment_value (ExprModule := ExprExample.tagged_lists)
         ExprExample.set_y_1_expr = Some value
       /\ Compiler._comp (E := ExprExample.tagged_lists) fuel' value w0
          = Compiler.Ok (cv, w1)
       /\ Byteplay.code ExprExample.set_y_1_then_2_code
          = (cv ++ Byteplay.Ins Byteplay.STORE_FAST n
                :: Byteplay.Ins Byteplay.POP_TOP Byteplay.ANone :: tail)%list.
Proof.
  assert (H : Compiler.compile (E := ExprExample.tagged_lists) 10
                [ExprExample.set_y_1_expr; Bytecode.Number 2]
                (Compiler.new_compiler 0)
              = Compiler.Ok (ExprExample.set_y_1_then_2_code,
                             ExprExample.compiled_world 0))
    by reflexivity.
  repeat (split; [reflexivity|]).
  exact (proj1 (sequence_pops_after_assignment_store
                  (E := ExprExample.tagged_lists) 10
                  ExprExample.set_y_1_expr (Bytecode.Number 2) []
                  eq_refl eq_refl eq_refl eq_refl) _ _ _ H).
Defined.

(* ================================================================== *)
(** * Invariants of the compiled code *)
(* ================================================================== *)

Section CompilerInvariants.
Import Bytecode.
Import Byteplay.
Import Compiler.
Local Open Scope comp_scope.
Local Open Scope nat_scope.
Local Open Scope list_scope.
Context {E : ExprModule}.

Lemma marks_app (a b : list item) : marks (a ++ b) = marks a ++ marks b.
Proof.
  apply flat_map_app.
Qed.

Lemma targets_app (a b : list item) :
  targets (a ++ b) = targets a ++ targets b.
Proof.
  apply flat_map_app.
Qed.

Lemma subcodes_app (a b : list item) :
  subcodes (a ++ b) = subcodes a ++ subcodes b.
Proof.
  apply flat_map_app.
Qed.

Definition nested_ok (k : list item) : Prop :=
  every_code labels_placed k /\ every_code ends_with_return k.

(** What a computation that allocated the labels [lo .. hi-1] may have put
    in the code list [c]. *)
Definition footprint (lo hi : nat) (c : list item) : Prop :=
  lo <= hi
  /\ (forall l, In l (marks c) -> lo <= l < hi)
  /\ NoDup (marks c)
  /\ incl (targets c) (marks c)
  /\ Forall nested_ok (subcodes c).

Definition sound (w : world) (c : list item) (w' : world) : Prop :=
  frame w' = frame w
  /\ labelstate w' = labelstate w
  /\ footprint (next_label w) (next_label w') c.

Lemma sound_intro (w w' : world) (c : list item) :
  frame w' = frame w ->
  labelstate w' = labelstate w ->
  footprint (next_label w) (next_label w') c ->
  sound w c w'.
Proof.
  intros F L P. split; [exact F|]. split; [exact L|exact P].
Qed.

Definition plain_arg (a : pyarg) : Prop :=
  match a with
  | ALabel _ | ACode _ => False
  | _ => True
  end.

Lemma footprint_nil (lo hi : nat) : lo <= hi -> footprint lo hi [].
Proof.
  intros H. unfold footprint. cbn [marks targets subcodes flat_map].
  split; [exact H|]. split; [intros l []|]. split; [constructor|].
  split; [intros l []|constructor].
Qed.

Lemma footprint_plain (lo hi : nat) (op : Opcode) (a : pyarg) :
  lo <= hi -> plain_arg a -> footprint lo hi [Ins op a].
Proof.
  intros H Pa.
  destruct a; try contradiction;
    unfold footprint; cbn [marks targets subcodes flat_map app];
    (split; [exact H|]); (split; [intros l []|]); (split; [constructor|]);
    (split; [intros l []|constructor]).
Qed.

Lemma footprint_weaken (lo hi lo' hi' : nat) (c : list item) :
  footprint lo hi c -> lo' <= lo -> hi <= hi' -> footprint lo' hi' c.
Proof.
  intros (H1 & H2 & H3 & H4 & H5) L H.
  split; [lia|]. split; [|now repeat split].
  intros l Hl. apply H2 in Hl. lia.
Qed.

Lemma footprint_app (lo hi l1 h1 l2 h2 : nat) (c1 c2 : list item) :
  footprint l1 h1 c1 ->
  footprint l2 h2 c2 ->
  h1 <= l2 \/ h2 <= l1 ->
  lo <= l1 -> lo <= l2 -> h1 <= hi -> h2 <= hi ->
  footprint lo hi (c1 ++ c2).
Proof.
  intros (A1 & A2 & A3 & A4 & A5) (B1 & B2 & B3 & B4 & B5) D L1 L2 H1 H2.
  unfold footprint. rewrite marks_app, targets_app, subcodes_app.
  split; [lia|]. split.
  { intros l Hl. apply in_app_iff in Hl as [Hl|Hl];
      [apply A2 in Hl|apply B2 in Hl]; lia. }
  split.
  { apply NoDup_app; try assumption.
    intros l Ha Hb. apply A2 in Ha. apply B2 in Hb. lia. }
  split; [now apply incl_app_app|].
  apply Forall_app. now split.
Qed.

Lemma footprint_seq (lo mid hi : nat) (c1 c2 : list item) :
  footprint lo mid c1 -> footprint mid hi c2 -> footprint lo hi (c1 ++ c2).
Proof.
  intros F1 F2.
  pose proof F1 as (A & _). pose proof F2 as (B & _).
  apply (footprint_app lo hi lo mid mid hi); auto; lia.
Qed.

(** ** What one step of a computation tells *)

Lemma bind_ok {A B : Type} (m : M A) (f : A -> M B) (w w' : world) (b : B) :
  (x <- m ;; f x) w = Ok (b, w') ->
  exists a w1, m w = Ok (a, w1) /\ f a w1 = Ok (b, w').
Proof.
  rewrite bind_run. destruct (m w) as [[a w1]|e|]; try discriminate.
  intros H. now exists a, w1.
Qed.

Lemma ret_ok {A : Type} (a b : A) (w w' : world) :
  ret a w = Ok (b, w') -> b = a /\ w' = w.
Proof.
  unfold ret. intros H. injection H as <- <-. now split.
Qed.

Lemma lift_ok {A : Type} (o : option A) (a : A) (w w' : world) :
  lift o w = Ok (a, w') -> o = Some a /\ w' = w.
Proof.
  destruct o as [x|]; [|discriminate].
  intros H. apply ret_ok in H as [-> ->]. now split.
Qed.

Lemma value_encode_ok (e : obj) (a : pyarg) (w w' : world) :
  value_encode e w = Ok (a, w') -> plain_arg a /\ w' = w.
Proof.
  destruct e; try discriminate. cbn [value_encode].
  destruct (all_ascii value); [|discriminate].
  intros H. apply ret_ok in H as [-> ->]. now split.
Qed.

Lemma attr_value_ok (e : obj) (a : pyarg) (w w' : world) :
  attr_value e w = Ok (a, w') -> plain_arg a /\ w' = w.
Proof.
  destruct e; try discriminate; cbn [attr_value]; intros H;
    apply ret_ok in H as [-> ->]; now split.
Qed.

Lemma symbol_names_ok (l : list obj) (names : list string) (w w' : world) :
  symbol_names l w = Ok (names, w') -> w' = w.
Proof.
  revert names w'. induction l as [|x l IH]; intros names w' H.
  - now apply ret_ok in H.
  - destruct x; try discriminate. cbn [symbol_names] in H.
    apply bind_ok in H as (vs & w1 & H1 & H).
    apply IH in H1. subst w1. now apply ret_ok in H.
Qed.

Lemma new_label_ok (l : Label) (w w' : world) :
  new_label w = Ok (l, w') ->
  l = next_label w
  /\ w' = mkWorld (labelstate w) (frame w) (S (next_label w)).
Proof.
  unfold new_label. intros H. injection H as <- <-. now split.
Qed.

(** ** Sequences *)

Lemma comp_exprlist_run (comp : obj -> M (list item)) (exprlist : list obj)
  (w : world) :
  _comp_exprlist comp exprlist w =
  match mapM comp exprlist w with
  | Ok (cs, w') => Ok (with_pops cs, w')
  | Raise e => Raise e
  | OutOfFuel => OutOfFuel
  end.
Proof.
  unfold _comp_exprlist, _instr_seq. rewrite bind_run.
  rewrite (mapM_post comp
             (fun c => List.concat [c; _instr POP_TOP ANone]) exprlist w).
  destruct (mapM comp exprlist w) as [[cs w']|e|]; try reflexivity.
  unfold ret. do 2 f_equal.
  assert (M1 : map (fun c => List.concat [c; _instr POP_TOP ANone]) cs
               = map (fun c => c ++ [Ins POP_TOP ANone]) cs).
  { apply map_ext. intros c. cbn [List.concat]. unfold _instr.
    now rewrite app_nil_r. }
  rewrite M1, removelast_pops.
  destruct cs as [|c cs]; [reflexivity|].
  cbn [map List.concat]. rewrite !length_app. cbn [List.length].
  destruct (Z.ltb_spec 0 (Z.of_nat
              (List.length c + 1
               + List.length (List.concat
                   (map (fun c0 => c0 ++ [Ins POP_TOP ANone]) cs)))));
    [reflexivity|lia].
Qed.

Lemma with_pops_footprint (lo hi : nat) (cs : list (list item)) :
  footprint lo hi (List.concat cs) -> footprint lo hi (with_pops cs).
Proof.
  assert (Q : marks (with_pops cs) = marks (List.concat cs)
              /\ targets (with_pops cs) = targets (List.concat cs)
              /\ subcodes (with_pops cs) = subcodes (List.concat cs)).
  { induction cs as [|c cs IH]; [now repeat split|].
    destruct cs as [|c' cs].
    - cbn [with_pops List.concat]. rewrite app_nil_r. now repeat split.
    - change (with_pops (c :: c' :: cs))
        with (c ++ [Ins POP_TOP ANone] ++ with_pops (c' :: cs)).
      change (List.concat (c :: c' :: cs))
        with (c ++ List.concat (c' :: cs)).
      destruct IH as (I1 & I2 & I3).
      rewrite !marks_app, !targets_app, !subcodes_app, I1, I2, I3.
      now repeat split. }
  destruct Q as (Q1 & Q2 & Q3).
  unfold footprint. now rewrite Q1, Q2, Q3.
Qed.

Section WithSoundComp.
Variable comp : obj -> M (list item).
Hypothesis sound_comp :
  forall e w c w', comp e w = Ok (c, w') -> sound w c w'.

Lemma sound_mapM (l : list obj) (w w' : world) (cs : list (list item)) :
  mapM comp l w = Ok (cs, w') -> sound w (List.concat cs) w'.
Proof.
  revert w w' cs. induction l as [|x l IH]; intros w w' cs H.
  - apply ret_ok in H as [-> ->].
    apply sound_intro; try reflexivity. apply footprint_nil. lia.
  - cbn [mapM] in H.
    apply bind_ok in H as (c & w1 & H1 & H).
    apply bind_ok in H as (cs' & w2 & H2 & H).
    apply ret_ok in H as [-> ->].
    apply sound_comp in H1 as (F1 & L1 & P1).
    apply IH in H2 as (F2 & L2 & P2).
    apply sound_intro; try congruence.
    cbn [List.concat]. exact (footprint_seq _ _ _ _ _ P1 P2).
Qed.

Lemma sound_comp_exprlist (l : list obj) (w w' : world) (c : list item) :
  _comp_exprlist comp l w = Ok (c, w') -> sound w c w'.
Proof.
  rewrite comp_exprlist_run.
  destruct (mapM comp l w) as [[cs w1]|e|] eqn:H; try discriminate.
  intros Q. injection Q as <- <-.
  apply sound_mapM in H as (F & L & P).
  apply sound_intro; try assumption. now apply with_pops_footprint.
Qed.

Lemma sound_comp_begin (e : obj) (w w' : world) (c : list item) :
  _comp_begin comp e w = Ok (c, w') -> sound w c w'.
Proof.
  unfold _comp_begin. intros H.
  apply bind_ok in H as (l & w1 & H1 & H).
  apply lift_ok in H1 as [_ ->].
  now apply sound_comp_exprlist in H.
Qed.

Lemma sound_comp_definition (e : obj) (w w' : world) (c : list item) :
  _comp_definition comp e w = Ok (c, w') -> sound w c w'.
Proof.
  unfold _comp_definition. intros H.
  apply bind_ok in H as (v & w1 & H1 & H). apply lift_ok in H1 as [_ ->].
  apply bind_ok in H as (cv & w2 & H2 & H).
  apply bind_ok in H as (var & w3 & H3 & H). apply lift_ok in H3 as [_ ->].
  apply bind_ok in H as (n & w4 & H4 & H).
  apply value_encode_ok in H4 as [Pn ->].
  apply ret_ok in H as [-> ->].
  apply sound_comp in H2 as (F & L & P).
  apply sound_intro; try assumption.
  unfold _instr_seq, _instr. cbn [List.concat]. rewrite app_nil_r.
  pose proof P as (Le & _).
  apply (footprint_seq _ (next_label w2)); [exact P|].
  apply (footprint_seq _ (next_label w2));
    apply footprint_plain; try lia; [exact Pn|exact I].
Qed.

Lemma sound_comp_application (e : obj) (w w' : world) (c : list item) :
  _comp_application comp e w = Ok (c, w') -> sound w c w'.
Proof.
  unfold _comp_application. intros H.
  apply bind_ok in H as (ops & w1 & H1 & H). apply lift_ok in H1 as [_ ->].
  apply bind_ok in H as (args & w2 & H2 & H). apply lift_ok in H2 as [_ ->].
  apply bind_ok in H as (cs & w3 & H3 & H).
  apply bind_ok in H as (op & w4 & H4 & H). apply lift_ok in H4 as [_ ->].
  apply bind_ok in H as (cop & w5 & H5 & H).
  apply ret_ok in H as [-> ->].
  apply sound_mapM in H3 as (F3 & L3 & P3).
  apply sound_comp in H5 as (F5 & L5 & P5).
  apply sound_intro; try congruence.
  unfold _instr_seq, _instr. cbn [List.concat]. rewrite app_nil_r.
  pose proof P3 as (Le3 & _). pose proof P5 as (Le5 & _).
  assert (P4 : footprint (next_label w) (next_label w3)
                 (List.concat cs
                  ++ [Ins CALL_FUNCTION
                        (AInt (Z.of_nat (List.length args)))])).
  { apply (footprint_seq _ (next_label w3)); [exact P3|].
    apply footprint_plain; [lia|exact I]. }
  apply (footprint_app (next_label w) (next_label w5)
           (next_label w3) (next_label w5) (next_label w) (next_label w3)
           _ _ P5 P4); lia.
Qed.

Lemma sound_comp_if (e : obj) (w w' : world) (c : list item) :
  _comp_if comp e w = Ok (c, w') -> sound w c w'.
Proof.
  unfold _comp_if. intros H.
  apply bind_ok in H as (l1 & w1 & H1 & H).
  apply new_label_ok in H1 as [-> ->].
  apply bind_ok in H as (l2 & w2 & H2 & H).
  apply new_label_ok in H2 as [-> ->]. cbn [next_label labelstate frame] in H.
  apply bind_ok in H as (p & w3 & H3 & H). apply lift_ok in H3 as [_ ->].
  apply bind_ok in H as (cp & w4 & H4 & H).
  apply bind_ok in H as (q & w5 & H5 & H). apply lift_ok in H5 as [_ ->].
  apply bind_ok in H as (cc & w6 & H6 & H).
  apply bind_ok in H as (a & w7 & H7 & H). apply lift_ok in H7 as [_ ->].
  apply bind_ok in H as (ca & w8 & H8 & H).
  apply ret_ok in H as [-> ->].
  apply sound_comp in H4 as (F4 & L4 & (A1 & A2 & A3 & A4 & A5)).
  apply sound_comp in H6 as (F6 & L6 & (B1 & B2 & B3 & B4 & B5)).
  apply sound_comp in H8 as (F8 & L8 & (C1 & C2 & C3 & C4 & C5)).
  cbn [next_label labelstate frame] in *.
  apply sound_intro; try (cbn [frame labelstate]; congruence).
  cbn [next_label].
  unfold footprint, _instr_seq, _instr. cbn [List.concat].
  rewrite app_nil_r, ?marks_app, ?targets_app, ?subcodes_app.
  cbn [marks targets subcodes flat_map app].
  split; [lia|]. split; [|split; [|split]].
  - intros l Hl.
    repeat (apply in_app_iff in Hl as [Hl|Hl] || destruct Hl as [Hl|Hl]);
      try (apply A2 in Hl); try (apply B2 in Hl); try (apply C2 in Hl);
      try contradiction; lia.
  - apply NoDup_app; [exact A3| |].
    + apply NoDup_app; [exact B3| |].
      * constructor.
        -- intros Hl. apply in_app_iff in Hl as [Hl|[Hl|[]]];
             [apply C2 in Hl|]; lia.
        -- apply NoDup_app; [exact C3|repeat constructor; intros []|].
           intros l Hl [Hm|[]]. apply C2 in Hl. lia.
      * intros l Hl [Hm|Hm]; [apply B2 in Hl; lia|].
        apply in_app_iff in Hm as [Hm|[Hm|[]]];
          apply B2 in Hl; [apply C2 in Hm|]; lia.
    + intros l Hl Hm. apply A2 in Hl.
      apply in_app_iff in Hm as [Hm|[Hm|Hm]]; [apply B2 in Hm; lia|lia|].
      apply in_app_iff in Hm as [Hm|[Hm|[]]]; [apply C2 in Hm|]; lia.
  - intros l Hl.
    apply in_app_iff in Hl as [Hl|[Hl|Hl]].
    + apply in_app_iff. left. now apply A4.
    + subst l. apply in_app_iff. right. apply in_app_iff. right. now left.
    + apply in_app_iff in Hl as [Hl|[Hl|Hl]].
      * apply in_app_iff. right. apply in_app_iff. left. now apply B4.
      * subst l. apply in_app_iff. right. apply in_app_iff. right. right.
        apply in_app_iff. right. now left.
      * rewrite app_nil_r in Hl.
        apply in_app_iff. right. apply in_app_iff. right. right.
        apply in_app_iff. left. now apply C4.
  - rewrite app_nil_r. apply Forall_app. split; [exact A5|].
    apply Forall_app. now split.
Qed.

Lemma local_frame_ok {A : Type} (body : M A) (a : A) (w w' : world) :
  _local_frame body w = Ok (a, w') ->
  exists parent w1,
    frame w = Some parent
    /\ body (mkWorld (labelstate w) (Some (LocalFrame parent []))
              (next_label w)) = Ok (a, w1)
    /\ w' = mkWorld (labelstate w1) (Some parent) (next_label w1).
Proof.
  unfold _local_frame. intros H.
  apply bind_ok in H as (parent & w1 & H1 & H).
  unfold get_frame in H1.
  destruct (frame w) as [f|] eqn:Fw; [|discriminate].
  injection H1 as <- <-.
  apply bind_ok in H as (u & w2 & H2 & H).
  unfold set_frame in H2. injection H2 as _ <-.
  apply bind_ok in H as (x & w3 & H3 & H).
  apply bind_ok in H as (u' & w4 & H4 & H).
  unfold set_frame in H4. injection H4 as _ <-.
  apply ret_ok in H as [-> ->].
  exists f, w3. now repeat split.
Qed.

Lemma nested_ok_of_body (lo hi : nat) (b : list item) :
  footprint lo hi b -> nested_ok (b ++ [Ins RETURN_VALUE ANone]).
Proof.
  intros (_ & _ & B3 & B4 & B5).
  assert (M1 : marks (b ++ [Ins RETURN_VALUE ANone]) = marks b)
    by (rewrite marks_app; apply app_nil_r).
  assert (T1 : targets (b ++ [Ins RETURN_VALUE ANone]) = targets b)
    by (rewrite targets_app; apply app_nil_r).
  assert (S1 : subcodes (b ++ [Ins RETURN_VALUE ANone]) = subcodes b)
    by (rewrite subcodes_app; apply app_nil_r).
  split; constructor.
  - unfold labels_placed. rewrite M1, T1. now split.
  - rewrite S1. revert B5. apply Forall_impl. now intros k [K _].
  - now exists b.
  - rewrite S1. revert B5. apply Forall_impl. now intros k [_ K].
Qed.

Lemma sound_comp_lambda (e : obj) (w w' : world) (c : list item) :
  _comp_lambda comp e w = Ok (c, w') -> sound w c w'.
Proof.
  unfold _comp_lambda. intros H.
  apply bind_ok in H as (ps & w1 & H1 & H). apply lift_ok in H1 as [_ ->].
  apply bind_ok in H as (args & w2 & H2 & H). apply lift_ok in H2 as [_ ->].
  apply bind_ok in H as (names & w3 & H3 & H).
  apply symbol_names_ok in H3 as ->.
  apply bind_ok in H as (ops & w4 & H4 & H).
  apply ret_ok in H as [-> ->].
  apply local_frame_ok in H4 as (parent & w5 & Fw & Hb & ->).
  apply bind_ok in Hb as (body & w6 & H6 & Hb).
  apply lift_ok in H6 as [_ ->].
  apply bind_ok in Hb as (b & w7 & H7 & Hb).
  apply ret_ok in Hb as [-> ->].
  apply sound_comp_begin in H7 as (F7 & L7 & P7).
  cbn [frame labelstate next_label] in F7, L7, P7.
  apply sound_intro; cbn [frame labelstate next_label];
    [now symmetry|exact L7|].
  pose proof P7 as (Le & _).
  unfold footprint, _instr_seq, _instr.
  cbn [List.concat app marks targets subcodes flat_map Byteplay.code].
  split; [exact Le|]. split; [intros l []|]. split; [constructor|].
  split; [intros l []|].
  constructor; [|constructor].
  rewrite ?app_nil_r. exact (nested_ok_of_body _ _ _ P7).
Qed.

End WithSoundComp.

Lemma sound_comp_fuel (fuel : nat) (e : obj) (w : world) (c : list item)
  (w' : world) :
  _comp fuel e w = Ok (c, w') -> sound w c w'.
Proof.
  revert e w c w'. induction fuel as [|fuel IH]; intros e w c w' H;
    [discriminate|].
  cbn [_comp] in H.
  destruct (is_self_evaluating e).
  { apply bind_ok in H as (v & w1 & H1 & H).
    apply attr_value_ok in H1 as [Pv ->]. apply ret_ok in H as [-> ->].
    apply sound_intro; try reflexivity.
    apply footprint_plain; [lia|exact Pv]. }
  destruct (is_variable e).
  { apply bind_ok in H as (v & w1 & H1 & H).
    apply value_encode_ok in H1 as [Pv ->]. apply ret_ok in H as [-> ->].
    apply sound_intro; try reflexivity.
    apply footprint_plain; [lia|exact Pv]. }
  destruct (is_quoted e); [discriminate|].
  destruct (is_assignment e).
  { apply bind_ok in H as (v & w1 & H1 & H). apply lift_ok in H1 as [_ ->].
    apply bind_ok in H as (cv & w2 & H2 & H).
    apply bind_ok in H as (var & w3 & H3 & H). apply lift_ok in H3 as [_ ->].
    apply bind_ok in H as (n & w4 & H4 & H).
    apply value_encode_ok in H4 as [Pn ->].
    apply ret_ok in H as [-> ->].
    apply IH in H2 as (F & L & P).
    apply sound_intro; try assumption.
    unfold _instr_seq, _instr. cbn [List.concat]. rewrite app_nil_r.
    pose proof P as (Le & _).
    apply (footprint_seq _ (next_label w2)); [exact P|].
    apply footprint_plain; [lia|exact Pn]. }
  destruct (is_definition e); [exact (sound_comp_definition _ IH _ _ _ _ H)|].
  destruct (is_if e); [exact (sound_comp_if _ IH _ _ _ _ H)|].
  destruct (is_cond e).
  { apply bind_ok in H as (x & w1 & H1 & H). apply lift_ok in H1 as [_ ->].
    exact (IH _ _ _ _ H). }
  destruct (is_let e).
  { apply bind_ok in H as (x & w1 & H1 & H). apply lift_ok in H1 as [_ ->].
    exact (IH _ _ _ _ H). }
  destruct (is_lambda e); [exact (sound_comp_lambda _ IH _ _ _ _ H)|].
  destruct (is_begin e).
  { apply bind_ok in H as (x & w1 & H1 & H). apply lift_ok in H1 as [_ ->].
    exact (sound_comp_begin _ IH _ _ _ _ H). }
  destruct (is_application e);
    [exact (sound_comp_application _ IH _ _ _ _ H)|discriminate].
Qed.

Lemma compile_ok (fuel : nat) (exprlist : list obj) (w w' : world)
  (k : Code) :
  compile fuel exprlist w = Ok (k, w') ->
  exists b,
    Byteplay.code k = b ++ [Ins RETURN_VALUE ANone]
    /\ frame w' = Some (GlobalFrame [])
    /\ labelstate w' = labelstate w
    /\ footprint (next_label w) (next_label w') b.
Proof.
  unfold compile. intros H.
  apply bind_ok in H as (u & w1 & H1 & H).
  unfold set_frame in H1. injection H1 as _ <-.
  apply bind_ok in H as (b & w2 & H2 & H).
  apply ret_ok in H as [-> ->].
  apply (sound_comp_exprlist _ (sound_comp_fuel fuel)) in H2
    as (F & L & P).
  exists b. cbn [Byteplay.code frame labelstate next_label] in *.
  split.
  { unfold _instr_seq, _instr. cbn [List.concat]. now rewrite app_nil_r. }
  split; [exact F|]. split; [exact L|exact P].
Qed.

(** X6.  Compiling an expression leaves the compiler as it found it: when
    [_comp] returns, [self.frame] is the frame it was called with (every
    [LocalFrame] pushed for a lambda has been popped again) and
    [labelstate] is unchanged; labels are only ever allocated, never
    reused. *)
Theorem comp_restores_frame (fuel : nat) (e : obj) (w w' : world)
  (c : list item) :
  _comp fuel e w = Ok (c, w') ->
  frame w' = frame w
  /\ labelstate w' = labelstate w
  /\ next_label w <= next_label w'.
Proof.
  intros H. apply sound_comp_fuel in H as (F & L & Le & _).
  now repeat split.
Qed.

(** X7.  In the code of a compiled program, and in the code of every lambda
    nested in it at any depth, every label that an instruction refers to is
    placed in that same code list, and no label is placed twice; the labels
    of the program are among those allocated during its compilation. *)
Theorem compiled_labels_are_placed (fuel : nat) (exprlist : list obj)
  (w w' : world) (k : Code) :
  compile fuel exprlist w = Ok (k, w') ->
  every_code labels_placed (Byteplay.code k)
  /\ (forall l, In l (marks (Byteplay.code k)) ->
      next_label w <= l < next_label w').
Proof.
  intros H. apply compile_ok in H as (b & -> & _ & _ & P).
  pose proof (nested_ok_of_body _ _ _ P) as [K _].
  split; [exact K|].
  destruct P as (_ & P2 & _).
  intros l Hl. rewrite marks_app in Hl.
  cbn [marks flat_map] in Hl. rewrite app_nil_r in Hl. now apply P2.
Qed.

(** X8.  The code of a compiled program ends with RETURN_VALUE, and so does
    the code of every lambda nested in it at any depth. *)
Theorem compiled_code_ends_with_return (fuel : nat) (exprlist : list obj)
  (w w' : world) (k : Code) :
  compile fuel exprlist w = Ok (k, w') ->
  every_code ends_with_return (Byteplay.code k).
Proof.
  intros H. apply compile_ok in H as (b & -> & _ & _ & P).
  now pose proof (nested_ok_of_body _ _ _ P) as [_ K].
Qed.

End CompilerInvariants.

Lemma comp_restores_frame_witness :
  Compiler._comp (E := ExprExample.tagged_lists) 10
    (hd Bytecode.PyNone ExprExample.apply_lambda_if)
    (ExprExample.compiled_world 0)
  = Compiler.Ok (ExprExample.apply_lambda_if_items,
                 ExprExample.compiled_world 2)
  /\ Compiler.frame (ExprExample.compiled_world 2)
     = Compiler.frame (ExprExample.compiled_world 0)
  /\ Compiler.labelstate (ExprExample.compiled_world 2)
     = Compiler.labelstate (ExprExample.compiled_world 0)
  /\ (Compiler.next_label (ExprExample.compiled_world 0)
      <= Compiler.next_label (ExprExample.compiled_world 2))%nat.
Proof.
  assert (H : Compiler._comp (E := ExprExample.tagged_lists) 10
                (hd Bytecode.PyNone ExprExample.apply_lambda_if)
                (ExprExample.compiled_world 0)
              = Compiler.Ok (ExprExample.apply_lambda_if_items,
                             ExprExample.compiled_world 2))
    by (vm_compute; reflexivity).
  split; [exact H|].
  exact (comp_restores_frame 10 _ _ _ _ H).
Defined.

Lemma compiled_labels_are_placed_witness :
  Compiler.compile (E := ExprExample.tagged_lists) 10
    ExprExample.apply_lambda_if (Compiler.new_compiler 0)
  = Compiler.Ok (ExprExample.apply_lambda_if_code,
                 ExprExample.compiled_world 2)
  /\ Compiler.every_code Compiler.labels_placed
       (Byteplay.code ExprExample.apply_lambda_if_code)
  /\ (forall l,
        In l (Compiler.marks (Byteplay.code ExprExample.apply_lambda_if_code))
        -> (Compiler.next_label (Compiler.new_compiler 0) <= l
            < Compiler.next_label (ExprExample.compiled_world 2))%nat).
Proof.
  assert (H : Compiler.compile (E := ExprExample.tagged_lists) 10
                ExprExample.apply_lambda_if (Compiler.new_compiler 0)
              = Compiler.Ok (ExprExample.apply_lambda_if_code,
                             ExprExample.compiled_world 2))
    by (vm_compute; reflexivity).
  split; [exact H|].
  exact (compiled_labels_are_placed 10 _ _ _ _ H).
Defined.

Lemma compiled_code_ends_with_return_witness :
  Compiler.compile (E := ExprExample.tagged_lists) 10
    ExprExample.apply_lambda_if (Compiler.new_compiler 0)
  = Compiler.Ok (ExprExample.apply_lambda_if_code,
                 ExprExample.compiled_world 2)
  /\ Compiler.every_code Compiler.ends_with_return
       (Byteplay.code ExprExample.apply_lambda_if_code).
Proof.
  assert (H : Compiler.compile (E := ExprExample.tagged_lists) 10
                ExprExample.apply_lambda_if (Compiler.new_compiler 0)
              = Compiler.Ok (ExprExample.apply_lambda_if_code,
                             ExprExample.compiled_world 2))
    by (vm_compute; reflexivity).
  split; [exact H|].
  exact (compiled_code_ends_with_return 10 _ _ _ _ H).
Defined.

(* ================================================================== *)
(** * Properties of the translation of stores, and of the host *)
(* ================================================================== *)

Section AssignmentFacts.
Import Bytecode.
Import Byteplay.

(** The code that [_comp] emits for an assignment: the code of the value,
    then a store to the name; no frame is consulted. *)
Lemma comp_assignment {E : Compiler.ExprModule} (fuel : nat)
  (expr value : obj) (s : string) (c : list item) (w w' : Compiler.world) :
  Compiler.is_self_evaluating expr = false ->
  Compiler.is_variable expr = false ->
  Compiler.is_quoted expr = false ->
  Compiler.is_assignment expr = true ->
  Compiler.assignment_value expr = Some value ->
  Compiler.assignment_variable expr = Some (Symbol s) ->
  Compiler.all_ascii s = true ->
  Compiler._comp fuel value w = Compiler.Ok (c, w') ->
  Compiler._comp (S fuel) expr w
  = Compiler.Ok ((c ++ [Ins STORE_FAST (AStr s)])%list, w').
Proof.
  intros H1 H2 H3 H4 Hv Hn Ha Hc.
  cbn [Compiler._comp]. rewrite H1, H2, H3, H4, Hv, Hn.
  unfold Compiler.lift, Compiler.bind, Compiler.ret.
  rewrite Hc. cbn [Compiler.value_encode]. rewrite Ha.
  unfold Compiler.ret, Compiler._instr_seq, Compiler._instr.
  cbn [List.concat]. now rewrite app_nil_r.
Qed.

Import Bob2py.

Lemma op_storevar_ignores_env (self : CodeGenerator)
  (env1 env2 : Environment) (bobcode : CodeObject) (i : Instruction) :
  op_storevar self env1 bobcode i = op_storevar self env2 bobcode i.
Proof.
  reflexivity.
Qed.

(** C3.  The store of [(set! y 1)], translated in the global environment,
    where [y] was never defined: looking [y] up raises KeyError, yet
    [op_storevar] raises nothing, it emits [STORE_FAST 'y'], and does the
    same in every environment.  The compiler, too, emits the code of the
    value followed by [STORE_FAST 'y'] without an error. *)
Theorem storevar_of_unbound_name_is_emitted :
  (exists env,
     global_environment = Ok env
     /\ lookup_var env "y" = Raise (KeyError "Unknown variable")
     /\ op_storevar empty_generator env code_set_y storevar_0
        = Ok (mkCodeGenerator [(STORE_FAST, AStr "y")] []))
  /\ (forall self env1 env2 bobcode i,
        op_storevar self env1 bobcode i = op_storevar self env2 bobcode i)
  /\ Compiler.code_of
       (Compiler.compile (E := ExprExample.tagged_lists) 10
          ExprExample.set_y_1 (Compiler.new_compiler 0))
     = Compiler.Ok
         (mkCode [Ins LOAD_CONST (AInt 1); Ins STORE_FAST (AStr "y");
                  Ins RETURN_VALUE ANone]
            [] [] false false false "__main__" "<scheme>>" 0 None).
Proof.
  split.
  - eexists. split; [reflexivity|]. split; reflexivity.
  - split; [intros; reflexivity|]. vm_compute. reflexivity.
Qed.

End AssignmentFacts.

Section HostFacts.
Import Bytecode.
Import Byteplay.
Import Host.

(** ** The sum primitive *)

Lemma sum_from_ints (a : Z) (zs : list Z) :
  sum_from (VInt a) (map VInt zs) = Some (VInt (a + total zs)).
Proof.
  revert a. induction zs as [|z zs IH]; intros a.
  - cbn [map sum_from total fold_right]. now rewrite Z.add_0_r.
  - cbn [map sum_from py_add as_int]. rewrite IH.
    cbn [total fold_right]. fold (total zs). now rewrite Z.add_assoc.
Qed.

Lemma sum_ints (zs : list Z) : sum (map VInt zs) = Some (VInt (total zs)).
Proof.
  unfold sum. now rewrite sum_from_ints.
Qed.

(** C8.  The name ['+'] is bound to a sum primitive, both in the globals
    that [run_compiled] gives to the compiled code and in the namespace of
    the runtime module (where the name [add] itself is deleted again), and
    applying the primitive to any finite sequence of numbers, however long,
    returns the sum of all of them and prints nothing. *)
Theorem plus_is_bound_to_sum :
  (exists p,
     lookup run_compiled_globals "+" = Some p
     /\ forall zs, p (map VInt zs) = Some (VInt (total zs), []))
  /\ (exists g p,
        runtime_module = Some g
        /\ ns_get g "+" = Some (MProc "add" p)
        /\ ns_get g "add" = None
        /\ forall zs, p (map VInt zs) = Some (VInt (total zs), [])).
Proof.
  split.
  - exists lambda_sum. split; [reflexivity|].
    intros zs. unfold lambda_sum. now rewrite sum_ints.
  - eexists. exists add. split; [reflexivity|].
    split; [reflexivity|]. split; [reflexivity|].
    intros zs. unfold add. now rewrite sum_ints.
Qed.

End HostFacts.

(* ================================================================== *)
(** * Properties of the environments and operand translations of bob2py *)
(* ================================================================== *)

Section Bob2pyFacts.
Import Bytecode.
Import Byteplay.
Import Bob2py.
Local Open Scope list_scope.

Section EnvironmentInduction.
Variable P : Environment -> Prop.
Hypothesis Hroot : forall l vs, P (mkEnvironment None l vs).
Hypothesis Hchild :
  forall p l vs, P p -> P (mkEnvironment (Some p) l vs).

Fixpoint environment_ind (env : Environment) : P env :=
  match env with
  | mkEnvironment None l vs => Hroot l vs
  | mkEnvironment (Some p) l vs => Hchild p l vs (environment_ind p)
  end.
End EnvironmentInduction.

Lemma dict_get_app {V : Type} (a b : list (string * V)) (key : string) :
  dict_get (a ++ b) key =
  match dict_get a key with
  | Some v => Some v
  | None => dict_get b key
  end.
Proof.
  induction a as [|[k v] a IH]; [reflexivity|].
  cbn [app dict_get]. destruct (String.eqb k key); [reflexivity|exact IH].
Qed.

(** X9.  [lookup_var] returns the innermost binding of the name along the
    chain of parents, that is the first one among the bindings of the
    environment followed by those of its parent and so on, and raises
    KeyError exactly when no environment of the chain binds the name. *)
Theorem lookup_var_walks_chain (env : Environment) (name : string) :
  lookup_var env name =
  match dict_get (chain_vars env) name with
  | Some v => Ok v
  | None => Raise (KeyError "Unknown variable")
  end.
Proof.
  induction env as [l vs|p l vs IH] using environment_ind;
    cbn [lookup_var chain_vars]; rewrite dict_get_app;
    destruct (dict_get vs name); try reflexivity.
  exact IH.
Qed.

(** X10.  When [set_var] returns, the name was not bound in that
    environment itself, looking the name up now yields the new binding
    (shadowing any binding of a parent), and every other name is looked up
    as before. *)
Theorem set_var_then_lookup (env env' : Environment) (name type : string)
  (a : varg) :
  set_var env name type a = Ok env' ->
  dict_get (vars env) name = None
  /\ lookup_var env' name = Ok (type, a)
  /\ forall other, other <> name ->
       lookup_var env' other = lookup_var env other.
Proof.
  unfold set_var. destruct (dict_get (vars env) name) eqn:D; [discriminate|].
  intros H. injection H as <-. split; [reflexivity|].
  destruct env as [p l vs]. cbn [parent locals vars lookup_var dict_get].
  rewrite String.eqb_refl. split; [reflexivity|].
  intros other N.
  destruct (String.eqb_spec name other) as [Q|_]; [now subst|reflexivity].
Qed.

Lemma set_var_then_lookup_witness :
  set_var env_of_function "x" "LOCAL" (Index 0)
  = Ok (mkEnvironment (parent env_of_function) []
          [("x", ("LOCAL", Index 0)); ("a", ("ARG", Index 0))])
  /\ dict_get (vars env_of_function) "x" = None
  /\ lookup_var
       (mkEnvironment (parent env_of_function) []
          [("x", ("LOCAL", Index 0)); ("a", ("ARG", Index 0))]) "x"
     = Ok ("LOCAL", Index 0).
Proof.
  assert (H : set_var env_of_function "x" "LOCAL" (Index 0)
              = Ok (mkEnvironment (parent env_of_function) []
                      [("x", ("LOCAL", Index 0)); ("a", ("ARG", Index 0))]))
    by reflexivity.
  split; [exact H|].
  destruct (set_var_then_lookup _ _ _ _ _ H) as (A & B & _).
  split; [exact A|exact B].
Defined.

(** [set_var] raises exactly when the environment itself binds the name. *)
Lemma set_var_raises_iff (env : Environment) (name type : string) (a : varg) :
  set_var env name type a = Raise AssertionError
  <-> dict_get (vars env) name <> None.
Proof.
  unfold set_var. destruct (dict_get (vars env) name).
  - split; [discriminate|reflexivity].
  - split; [discriminate|]. intros N. now elim N.
Qed.

Lemma find_or_append_spec (lst : list string) (item : string) :
  0 <= fst (list_find_or_append lst item)
  /\ nth_error (snd (list_find_or_append lst item))
       (Z.to_nat (fst (list_find_or_append lst item))) = Some item
  /\ exists extra, snd (list_find_or_append lst item) = lst ++ extra.
Proof.
  induction lst as [|x lst (I1 & I2 & extra & I3)].
  - cbn. split; [lia|]. split; [reflexivity|]. now exists [item].
  - cbn [list_find_or_append].
    destruct (String.eqb_spec x item) as [->|N].
    + cbn [fst snd]. split; [lia|]. split; [reflexivity|].
      exists []. now rewrite app_nil_r.
    + cbn [fst snd]. split; [lia|]. split.
      * replace (Z.to_nat (1 + fst (list_find_or_append lst item)))
          with (S (Z.to_nat (fst (list_find_or_append lst item)))) by lia.
        exact I2.
      * exists extra. cbn [app]. now rewrite I3.
Qed.

Lemma local_index_spec (env env' : Environment) (name : string)
  (a : varg) :
  consistent env ->
  local_index env name = Ok (a, env') ->
  exists k,
    a = Index k
    /\ nth_error (locals env') (Z.to_nat k) = Some name
    /\ (exists extra, locals env' = locals env ++ extra)
    /\ consistent env'
    /\ local_index env' name = Ok (Index k, env').
Proof.
  intros C H. unfold local_index in H.
  destruct (dict_get (vars env) name) as [[type b]|] eqn:D.
  - destruct (String.eqb_spec type "LOCAL") as [T|T]; [|discriminate].
    injection H as <- <-.
    destruct (C _ _ _ D T) as (k & -> & K & N).
    exists k. split; [reflexivity|]. split; [exact N|].
    split; [exists []; now rewrite app_nil_r|]. split; [exact C|].
    unfold local_index. rewrite D, T. reflexivity.
  - injection H as <- <-.
    destruct (find_or_append_spec (locals env) name) as (K & N & extra & X).
    exists (fst (list_find_or_append (locals env) name)).
    split; [reflexivity|]. cbn [locals]. split; [exact N|].
    split; [now exists extra|]. split.
    + intros other type b G T. cbn [vars dict_get locals] in G |- *.
      destruct (String.eqb_spec name other) as [Q|Q].
      * subst other. injection G as _ <-.
        exists (fst (list_find_or_append (locals env) name)).
        now repeat split.
      * destruct (C _ _ _ G T) as (k & -> & Kk & Nk).
        exists k. split; [reflexivity|]. split; [exact Kk|].
        rewrite X. rewrite nth_error_app1; [exact Nk|].
        apply nth_error_Some. now rewrite Nk.
    + unfold local_index. cbn [vars dict_get].
      now rewrite String.eqb_refl.
Qed.

(** X11.  In an environment whose local bindings are consistent with its
    table of locals, [local_index] returns an index at which the table then
    holds the name; the table only grows at its end; the environment stays
    consistent; and asking again returns the same index and changes
    nothing. *)
Theorem local_index_is_stable (env env' : Environment) (name : string)
  (a : varg) :
  consistent env ->
  local_index env name = Ok (a, env') ->
  exists k,
    a = Index k
    /\ nth_error (locals env') (Z.to_nat k) = Some name
    /\ (exists extra, locals env' = locals env ++ extra)
    /\ consistent env'
    /\ local_index env' name = Ok (Index k, env').
Proof.
  exact (local_index_spec env env' name a).
Qed.

Lemma consistent_env_of_function : consistent env_of_function.
Proof.
  intros name type a G T. unfold env_of_function in G.
  cbn [vars dict_get] in G.
  destruct (String.eqb "a" name); [|discriminate].
  injection G as <- <-. discriminate.
Qed.

Lemma local_index_is_stable_witness :
  consistent env_of_function
  /\ local_index env_of_function "x" = Ok (Index 0, env_with_x)
  /\ exists k,
       Index 0 = Index k
       /\ nth_error (locals env_with_x) (Z.to_nat k) = Some "x"
       /\ (exists extra, locals env_with_x = locals env_of_function ++ extra)
       /\ consistent env_with_x
       /\ local_index env_with_x "x" = Ok (Index k, env_with_x).
Proof.
  assert (H : local_index env_of_function "x" = Ok (Index 0, env_with_x))
    by reflexivity.
  split; [exact consistent_env_of_function|]. split; [exact H|].
  exact (local_index_is_stable _ _ _ _ consistent_env_of_function H).
Defined.

Lemma ops_instrs (self : CodeGenerator) (l : list (Opcode * pyarg)) :
  ops (instrs self l) = ops self ++ l.
Proof.
  unfold instrs. revert self.
  induction l as [|[op a] l IH]; intros self; cbn [fold_left].
  - now rewrite app_nil_r.
  - rewrite IH. cbn [instr ops fst snd]. now rewrite <- app_assoc.
Qed.

(** X12.  A variable is loaded from the slot it was defined in: when
    [op_defvar] returns, in an environment consistent with its table of
    locals, it has emitted the store into some slot [k] of the frame, and in
    the environment it leaves behind [op_loadvar] of the same variable
    emits the load from that same slot [k]. *)
Theorem defvar_then_loadvar_same_slot (self self' : CodeGenerator)
  (env env' : Environment) (bobcode : CodeObject) (i : Instruction) :
  consistent env ->
  op_defvar self env bobcode i = Ok (self', env') ->
  exists k,
    ops self' = ops self ++ defvar_code k
    /\ forall g, op_loadvar g env' bobcode i
                 = Ok (instrs g (load_local_code k)).
Proof.
  intros C H. unfold op_defvar in H.
  destruct (getitem (varnames bobcode) (arg i)) as [o|e] eqn:G;
    [|discriminate].
  destruct (name_of o) as [name|e] eqn:N; [|discriminate].
  destruct (local_index env name) as [[a env1]|e] eqn:L; [|discriminate].
  destruct (local_index_spec _ _ _ _ C L) as (k & -> & _ & _ & _ & L').
  injection H as <- <-.
  exists k. split; [exact (ops_instrs self (defvar_code k))|].
  intros g. unfold op_loadvar. rewrite G, N.
  assert (D : dict_get (vars env1) name = Some ("LOCAL", Index k)).
  { unfold local_index in L'.
    destruct (dict_get (vars env1) name) as [[type b]|] eqn:D.
    - destruct (String.eqb_spec type "LOCAL") as [->|]; [|discriminate].
      now injection L' as ->.
    - exfalso. injection L' as _ Q.
      apply (f_equal vars) in Q. cbn [vars] in Q.
      apply (f_equal (@List.length _)) in Q. cbn [List.length] in Q. lia. }
  destruct env1 as [p l vs]. cbn [vars] in D. cbn [lookup_var]. rewrite D.
  reflexivity.
Qed.

Lemma defvar_then_loadvar_same_slot_witness :
  consistent env_of_function
  /\ op_defvar empty_generator env_of_function code_x_a_plus defvar_0
     = Ok (instrs empty_generator (defvar_code 0), env_with_x)
  /\ exists k,
       ops (instrs empty_generator (defvar_code 0))
       = ops empty_generator ++ defvar_code k
       /\ forall g, op_loadvar g env_with_x code_x_a_plus defvar_0
                    = Ok (instrs g (load_local_code k)).
Proof.
  assert (H : op_defvar empty_generator env_of_function code_x_a_plus
                defvar_0
              = Ok (instrs empty_generator (defvar_code 0), env_with_x))
    by reflexivity.
  split; [exact consistent_env_of_function|]. split; [exact H|].
  exact (defvar_then_loadvar_same_slot _ _ _ _ _ _
           consistent_env_of_function H).
Defined.

(** X13.  [op_loadvar] returns only for a name that the chain of
    environments binds as an argument or as a local, having emitted the
    load of that argument or local; for a name bound nowhere it raises
    KeyError, and for a builtin it always raises. *)
Theorem loadvar_only_args_and_locals (self g : CodeGenerator)
  (env : Environment) (bobcode : CodeObject) (i : Instruction) :
  op_loadvar self env bobcode i = Ok g ->
  exists name k,
    getitem (varnames bobcode) (arg i) = Ok (PyStr name)
    /\ ((lookup_var env name = Ok ("ARG", Index k)
         /\ g = instrs self (load_arg_code k))
        \/ (lookup_var env name = Ok ("LOCAL", Index k)
            /\ g = instrs self (load_local_code k))).
Proof.
  unfold op_loadvar. intros H.
  destruct (getitem (varnames bobcode) (arg i)) as [o|e] eqn:G;
    [|discriminate].
  destruct o; try discriminate. cbn [name_of] in H.
  destruct (lookup_var env s) as [[type a]|e] eqn:L; [|discriminate].
  destruct (String.eqb_spec type "BUILTIN") as [_|_].
  { destruct a as [[]|k]; [|discriminate].
    unfold bi_add_call in H. destruct (arg i) as [n|]; [|discriminate].
    destruct (0 <? n)%Z; discriminate. }
  destruct (String.eqb_spec type "ARG") as [->|_].
  { destruct a as [m|k]; [discriminate|]. injection H as <-.
    exists s, k. split; [reflexivity|]. left. now split. }
  destruct (String.eqb_spec type "LOCAL") as [->|_]; [|discriminate].
  destruct a as [m|k]; [discriminate|]. injection H as <-.
  exists s, k. split; [reflexivity|]. right. now split.
Qed.

Lemma loadvar_only_args_and_locals_witness :
  op_loadvar empty_generator env_with_x code_x_a_plus loadvar_1
  = Ok (instrs empty_generator (load_arg_code 0))
  /\ exists name k,
       getitem (varnames code_x_a_plus) (arg loadvar_1) = Ok (PyStr name)
       /\ ((lookup_var env_with_x name = Ok ("ARG", Index k)
            /\ instrs empty_generator (load_arg_code 0)
               = instrs empty_generator (load_arg_code k))
           \/ (lookup_var env_with_x name = Ok ("LOCAL", Index k)
               /\ instrs empty_generator (load_arg_code 0)
                  = instrs empty_generator (load_local_code k))).
Proof.
  assert (H : op_loadvar empty_generator env_with_x code_x_a_plus loadvar_1
              = Ok (instrs empty_generator (load_arg_code 0)))
    by reflexivity.
  split; [exact H|].
  exact (loadvar_only_args_and_locals _ _ _ _ _ H).
Defined.

End Bob2pyFacts.

(* ================================================================== *)
(** * Further properties of the host, the command line and the test runner *)
(* ================================================================== *)

Section MoreHostFacts.
Import Host.
Local Open Scope list_scope.

Lemma sum_from_items (a : Z) (items : list value) :
  sum_from (VInt a) items =
  match ints_of items with
  | Some zs => Some (VInt (a + total zs))
  | None => None
  end.
Proof.
  revert a. induction items as [|x items IH]; intros a.
  - cbn [sum_from ints_of total fold_right]. now rewrite Z.add_0_r.
  - cbn [sum_from ints_of py_add as_int].
    destruct (as_int x) as [z|]; [|reflexivity].
    rewrite IH. destruct (ints_of items) as [zs|]; [|reflexivity].
    cbn [total fold_right]. fold (total zs). now rewrite Z.add_assoc.
Qed.

Lemma add_items (items : list value) :
  add items =
  match ints_of items with
  | Some zs => Some (VInt (total zs), [])
  | None => None
  end.
Proof.
  unfold add, sum. rewrite sum_from_items.
  destruct (ints_of items); reflexivity.
Qed.

(** X14.  [add] raises exactly when one of its arguments is not a number,
    a boolean counting as the number 0 or 1; otherwise it returns the sum
    of the numbers its arguments stand for, and prints nothing. *)
Theorem add_sums_numbers_or_raises (items : list value) :
  add items =
  match ints_of items with
  | Some zs => Some (VInt (total zs), [])
  | None => None
  end.
Proof.
  exact (add_items items).
Qed.

Lemma total_of_permutation (a b : list value) :
  Permutation a b ->
  option_map total (ints_of a) = option_map total (ints_of b).
Proof.
  induction 1 as [|x a b _ IH|x y a|a b c _ IH1 _ IH2].
  - reflexivity.
  - cbn [ints_of]. destruct (as_int x) as [z|]; [|reflexivity].
    destruct (ints_of a) as [za|], (ints_of b) as [zb|];
      cbn [option_map] in IH |- *; try discriminate; try reflexivity.
    injection IH as IH. cbn [total fold_right]. fold (total za) (total zb).
    now rewrite IH.
  - cbn [ints_of].
    destruct (as_int x) as [zx|], (as_int y) as [zy|],
      (ints_of a) as [za|]; cbn [option_map]; try reflexivity.
    cbn [total fold_right]. f_equal. lia.
  - now rewrite IH1.
Qed.

(** X15.  The result of [add] does not depend on the order of its
    arguments: on a permutation of the arguments it returns the same sum, or
    raises alike. *)
Theorem add_ignores_argument_order (a b : list value) :
  Permutation a b -> add a = add b.
Proof.
  intros H. rewrite !add_items.
  pose proof (total_of_permutation a b H) as Q.
  destruct (ints_of a) as [za|], (ints_of b) as [zb|];
    cbn [option_map] in Q; try discriminate; try reflexivity.
  injection Q as Q. now rewrite Q.
Qed.

Lemma add_ignores_argument_order_witness :
  Permutation [VInt 1; VBool true; VInt 3] [VBool true; VInt 3; VInt 1]
  /\ add [VInt 1; VBool true; VInt 3] = add [VBool true; VInt 3; VInt 1].
Proof.
  assert (H : Permutation [VInt 1; VBool true; VInt 3]
                [VBool true; VInt 3; VInt 1]).
  { apply (perm_trans (perm_swap (VBool true) (VInt 1) [VInt 3])).
    apply perm_skip. apply perm_swap. }
  split; [exact H|].
  exact (add_ignores_argument_order _ _ H).
Defined.

End MoreHostFacts.

Section FrameFacts.
Import Bytecode.
Import Byteplay.
Import Compiler.

(** X16.  On a chain of frames whose local frames hold no variable, the
    frames that the compiler installs, a load is always a LOAD_GLOBAL, and a
    store either is a STORE_GLOBAL on the global frame, leaving such a chain,
    or raises: on a local frame [store] raises AttributeError.  No store
    ever makes a later load a LOAD_FAST. *)
Theorem frames_only_load_globals (f : Frame) (name : string) :
  no_locals f ->
  frame_load f name = [Ins LOAD_GLOBAL (AStr name)]
  /\ match frame_store f name with
     | Ok (c, f') =>
         c = [Ins STORE_GLOBAL (AStr name)] /\ no_locals f'
         /\ exists vars, f = GlobalFrame vars
     | Raise e => e = AttributeError /\ exists p vars, f = LocalFrame p vars
     | OutOfFuel => False
     end.
Proof.
  intros N. split.
  - induction f as [vars|p IH vars]; [reflexivity|].
    destruct N as [-> Np]. cbn [frame_load existsb]. now apply IH.
  - destruct f as [vars|p vars]; cbn [frame_store].
    + split; [reflexivity|]. split; [exact I|]. now exists vars.
    + split; [reflexivity|]. now exists p, vars.
Qed.

Lemma frames_only_load_globals_witness :
  no_locals (LocalFrame (GlobalFrame ["x"%string]) [])
  /\ frame_load (LocalFrame (GlobalFrame ["x"%string]) []) "x"
     = [Ins LOAD_GLOBAL (AStr "x")].
Proof.
  assert (N : no_locals (LocalFrame (GlobalFrame ["x"%string]) []))
    by (split; [reflexivity|exact I]).
  split; [exact N|].
  exact (proj1 (frames_only_load_globals _ "x" N)).
Defined.

End FrameFacts.

Section CmdFacts.
Import Cmd.

(** X17.  [main] compiles only a file whose name ends in [.scm] and only
    under [-c]; it interprets only such a file; it disassembles and runs as
    compiled bytecode only files whose names do not end in [.scm]; and
    without a file name it starts the interactive interpreter unless [-c]
    was given, whatever [-d] says. *)
Theorem main_dispatch (args : Namespace) :
  match main args with
  | CompileFile f out d =>
      filename args = Some f /\ endswith f ".scm" = true
      /\ compile args = true /\ out = output args /\ d = disassemble args
  | DisassembleFile f =>
      filename args = Some f /\ endswith f ".scm" = false
      /\ compile args = false /\ disassemble args = true
  | InterpretFile f =>
      filename args = Some f /\ endswith f ".scm" = true
      /\ compile args = false /\ disassemble args = false
  | RunCompiled f =>
      filename args = Some f /\ endswith f ".scm" = false
      /\ compile args = false /\ disassemble args = false
  | InteractiveInterpreter =>
      compile args = false
      /\ (filename args = None \/ filename args = Some EmptyString)
  | ParserError _ =>
      (compile args = true
       /\ (filename args = None \/ filename args = Some EmptyString
           \/ exists f, filename args = Some f /\ endswith f ".scm" = false))
      \/ (compile args = false /\ disassemble args = true
          /\ exists f, filename args = Some f /\ endswith f ".scm" = true)
  end.
Proof.
  destruct args as [c d o [f|]]; unfold main;
    cbn [filename compile disassemble output].
  - destruct f as [|ch f].
    + destruct c; [left|]; repeat split; auto.
    + set (n := String ch f).
      destruct c, d, (endswith n ".scm") eqn:S; cbn [negb];
        repeat split; auto;
        first [ left; split; [reflexivity|];
                right; right; exists n; now split
              | right; repeat split; exists n; now split ].
  - destruct c; [left|]; repeat split; auto.
Qed.

End CmdFacts.

Section TestRunnerFacts.
Import TestcasesUtils.
Local Open Scope list_scope.





Lemma lstrip_no_leading_space (s : string) (c : ascii) (r : string) :
  lstrip s = String c r -> is_space c = false.
Proof.
  induction s as [|x s IH]; [discriminate|].
  cbn [lstrip]. destruct (is_space x) eqn:Sx; [exact IH|].
  intros H. injection H as <- _. exact Sx.
Qed.

(** X19.  A test case whose program writes output that begins with white
    space can never pass: the expected text is compared after its leading
    white space was stripped, the output as it is. *)
Theorem output_with_leading_space_fails (runner : Runner)
  (t : TestCase) (c : ascii) (rest : string) :
  runner (code t) = Some (String c rest) ->
  is_space c = true ->
  passes runner t = false.
Proof.
  intros R S. unfold passes. rewrite R.
  destruct (String.eqb_spec (String c rest) (lstrip (expected t)))
    as [Q|_]; [|reflexivity].
  symmetry in Q. apply lstrip_no_leading_space in Q. congruence.
Qed.

Lemma output_with_leading_space_fails_witness :
  (fun _ : string => Some (String " " "5")) (code (mkTestCase "t" "5" " 5"))
  = Some (String " " "5")
  /\ is_space " " = true
  /\ passes (fun _ : string => Some (String " " "5"))
       (mkTestCase "t" "5" " 5")
     = false.
Proof.
  split; [reflexivity|]. split; [reflexivity|].
  apply (output_with_leading_space_fails (fun _ => Some (String " " "5"))
           (mkTestCase "t" "5" " 5") " "%char "5"); reflexivity.
Defined.

End TestRunnerFacts.
